(** * Undo/redo command stack (command-dp-example-v2.ts)

    A shallow embedding of the [ModifyCommand] class and of the [Invoker]
    class, and the properties of the history algorithm.

    Modelling choices, all read off the source:
    - a receiver is a plain mutable object: a finite map from property names
      to values; a value is a string or [undefined];
    - objects and commands live in a heap and are handled by reference, so
      that one command pushed twice on the log is one object with one
      [previousValue] slot;
    - a reference that denotes no object of the heap stands for [null] or
      [undefined]: a property access or a method call through it throws a
      [TypeError], and the exception leaves the method at that point with
      the mutations made so far;
    - [currentExecutionState] is a JavaScript number holding an integer, here
      a [Z]; array lengths stay far below 2^53. *)

From Stdlib Require Import ZArith Lia.
From stdpp Require Import base option list gmap strings.

Local Open Scope Z_scope.

(** ** Values, objects and references *)

Inductive value : Type :=
  | VUndefined
  | VString (s : string).

#[global] Instance value_eq_dec : EqDecision value.
Proof. solve_decision. Defined.

(** Reference to a receiver object. *)
Record oref : Type := ORef { oref_id : nat }.

(** Reference to a command object. *)
Record cref : Type := CRef { cref_id : nat }.

#[global] Instance oref_eq_dec : EqDecision oref.
Proof. solve_decision. Defined.

#[global] Instance cref_eq_dec : EqDecision cref.
Proof. solve_decision. Defined.

#[global] Instance oref_countable : Countable oref.
Proof. refine (inj_countable' oref_id ORef _). by intros []. Defined.

#[global] Instance cref_countable : Countable cref.
Proof. refine (inj_countable' cref_id CRef _). by intros []. Defined.

(** [interface ModifyCommandConfig] *)
Record ModifyCommandConfig : Type := {
  receiver : oref;
  changedValue : string;
  modificationType : string
}.

(** The fields of a [ModifyCommand] object: [private config] and
    [private previousValue]. *)
Record ModifyCommand : Type := {
  config : ModifyCommandConfig;
  previousValue : value
}.

(** [constructor(private config: ModifyCommandConfig) {}]: only [config] is
    assigned, [previousValue] stays [undefined]. *)
Definition new_ModifyCommand (cfg : ModifyCommandConfig) : ModifyCommand :=
  {| config := cfg; previousValue := VUndefined |}.

Record Heap : Type := {
  objects : gmap oref (gmap string value);
  commands : gmap cref ModifyCommand
}.

(** [obj[key]] on an object: a missing property reads as [undefined]. *)
Definition get_property (obj : gmap string value) (key : string) : value :=
  default VUndefined (obj !! key).

(** [obj[key] = v] on a plain object. *)
Definition set_property (obj : gmap string value) (key : string) (v : value)
  : gmap string value :=
  <[key := v]> obj.

(** What a caller can observe of a target: the value of each of its fields. *)
Definition field (h : Heap) (o : oref) (key : string) : option value :=
  (fun obj => get_property obj key) <$> objects h !! o.

(** ** Exceptions and state *)

Inductive Error : Type := TypeError.

Inductive Completion (S A : Type) : Type :=
  | Normal (a : A) (s : S)
  | Throw (e : Error) (s : S).
Arguments Normal {S A} a s.
Arguments Throw {S A} e s.

(** The state a call leaves behind, whether it returned or threw. *)
Definition state_after {S A : Type} (r : Completion S A) : S :=
  match r with
  | Normal _ s => s
  | Throw _ s => s
  end.

Definition returns {S A : Type} (r : Completion S A) : bool :=
  match r with
  | Normal _ _ => true
  | Throw _ _ => false
  end.

Definition M (S A : Type) : Type := S -> Completion S A.

Definition ret {S A : Type} (a : A) : M S A := fun s => Normal a s.

Definition bind {S A B : Type} (m : M S A) (k : A -> M S B) : M S B :=
  fun s =>
    match m s with
    | Normal a s' => k a s'
    | Throw e s' => Throw e s'
    end.

Definition gets {S A : Type} (f : S -> A) : M S A := fun s => Normal (f s) s.

Definition modify {S : Type} (f : S -> S) : M S unit := fun s => Normal tt (f s).

Declare Scope js_scope.
Delimit Scope js_scope with js.
Notation "x <- m ;; k" := (bind m (fun x => k))
  (at level 100, m at next level, right associativity) : js_scope.
Notation "m ;; k" := (bind m (fun _ => k))
  (at level 100, right associativity) : js_scope.

(** ** [class ModifyCommand implements Command] *)

Module ModifyCommand.

(** [this.config.receiver[key]]; a receiver that is no object throws. *)
Definition read_receiver (r : oref) (key : string) : M Heap value :=
  fun h =>
    match objects h !! r with
    | Some obj => Normal (get_property obj key) h
    | None => Throw TypeError h
    end.

(** [this.config.receiver[key] = v]. *)
Definition write_receiver (r : oref) (key : string) (v : value) : M Heap unit :=
  fun h =>
    match objects h !! r with
    | Some obj =>
        Normal tt {| objects := <[r := set_property obj key v]> (objects h);
                     commands := commands h |}
    | None => Throw TypeError h
    end.

(** The fields of [this]; a call through a reference that is no command
    throws before the body runs. *)
Definition self (this : cref) : M Heap ModifyCommand :=
  fun h =>
    match commands h !! this with
    | Some c => Normal c h
    | None => Throw TypeError h
    end.

(** [this.previousValue = v]. *)
Definition set_previousValue (this : cref) (v : value) : M Heap unit :=
  fun h =>
    match commands h !! this with
    | Some c =>
        Normal tt {| objects := objects h;
                     commands := <[this := {| config := config c;
                                              previousValue := v |}]> (commands h) |}
    | None => Throw TypeError h
    end.

(** [[
    public execute(): void {
        this.previousValue = this.config.receiver[this.config.modificationType];
        this.config.receiver[this.config.modificationType] = this.config.changedValue;
    }
    ]] *)
Definition execute (this : cref) : M Heap unit :=
  (c <- self this ;;
   v <- read_receiver (receiver (config c)) (modificationType (config c)) ;;
   set_previousValue this v ;;
   write_receiver (receiver (config c)) (modificationType (config c))
                  (VString (changedValue (config c))))%js.

(** [[
    public undo(): void {
        this.config.receiver[this.config.modificationType] = this.previousValue;
    }
    ]] *)
Definition undo (this : cref) : M Heap unit :=
  (c <- self this ;;
   write_receiver (receiver (config c)) (modificationType (config c))
                  (previousValue c))%js.

End ModifyCommand.

(** ** [interface Command] *)

(** A command runs on the heap; the [Invoker] reaches it through a handle of
    type [C] kept in its log. *)
Class Command (C : Type) : Type := {
  command_execute : C -> M Heap unit;
  command_undo : C -> M Heap unit
}.

(** [ModifyCommand] (and with it [ChangeTextCommand], [ChangeTextColorCommand]
    and [ChangeFontSizeCommand], which only build a config and inherit both
    methods) implements the interface; the handle is the object reference. *)
#[global] Instance ModifyCommand_Command : Command cref := {|
  command_execute := ModifyCommand.execute;
  command_undo := ModifyCommand.undo
|}.

(** ** Arrays *)

(** [Array.prototype.splice(start, deleteCount)] without inserted items, on the
    array after the call: a negative [start] counts from the end, and both
    arguments are clamped to the array. *)
Definition splice {A : Type} (l : list A) (start deleteCount : Z) : list A :=
  let len := Z.of_nat (length l) in
  let actualStart :=
    if start <? 0 then Z.max (len + start) 0 else Z.min start len in
  let actualDeleteCount := Z.min (Z.max deleteCount 0) (len - actualStart) in
  take (Z.to_nat actualStart) l
    ++ drop (Z.to_nat (actualStart + actualDeleteCount)) l.

(** [Array.prototype.push(x)]. *)
Definition push {A : Type} (l : list A) (x : A) : list A := l ++ [x].

(** [l[i]] for an integer [i]: [undefined] (here [None]) out of range. *)
Definition index {A : Type} (l : list A) (i : Z) : option A :=
  if i <? 0 then None else l !! Z.to_nat i.

(** ** [class Invoker] *)

Record Invoker (C : Type) : Type := {
  executedCommands : list C;
  currentExecutionState : Z
}.
Arguments executedCommands {C} _.
Arguments currentExecutionState {C} _.

(** [[
    private executedCommands: Array<Command> = [];
    private currentExecutionState: number = -1;
    ]] *)
Definition new_Invoker {C : Type} : Invoker C :=
  {| executedCommands := []; currentExecutionState := -1 |}.

(** The heap together with the one [Invoker] object the calls go to. *)
Record State (C : Type) : Type := {
  heap : Heap;
  invoker : Invoker C
}.
Arguments heap {C} _.
Arguments invoker {C} _.

Definition log {C : Type} (s : State C) : list C :=
  executedCommands (invoker s).

Definition cursor {C : Type} (s : State C) : Z :=
  currentExecutionState (invoker s).

Module Invoker.
Section Methods.

Context {C : Type} `{Command C}.

Definition get_length : M (State C) Z :=
  gets (fun s => Z.of_nat (length (log s))).

Definition get_currentExecutionState : M (State C) Z := gets cursor.

Definition set_currentExecutionState (n : Z) : M (State C) unit :=
  modify (fun s =>
    {| heap := heap s;
       invoker := {| executedCommands := log s;
                     currentExecutionState := n |} |}).

Definition update_executedCommands (f : list C -> list C) : M (State C) unit :=
  modify (fun s =>
    {| heap := heap s;
       invoker := {| executedCommands := f (log s);
                     currentExecutionState := cursor s |} |}).

(** [this.executedCommands[i]], about to receive a method call: an
    [undefined] element throws. *)
Definition element (i : Z) : M (State C) C :=
  fun s =>
    match index (log s) i with
    | Some c => Normal c s
    | None => Throw TypeError s
    end.

(** A method of a command runs on the heap and leaves the [Invoker] as it
    is, also when it throws. *)
Definition call (m : M Heap unit) : M (State C) unit :=
  fun s =>
    match m (heap s) with
    | Normal a h => Normal a {| heap := h; invoker := invoker s |}
    | Throw e h => Throw e {| heap := h; invoker := invoker s |}
    end.

(** [[
    public execute (command: Command): void {
        if (this.executedCommands.length - 1 > this.currentExecutionState) {
            let nextCommand: number = this.currentExecutionState + 1;
            this.executedCommands.splice(nextCommand, this.executedCommands.length - nextCommand);
        }
        this.executedCommands.push(command);
        command.execute();
        this.currentExecutionState = this.executedCommands.length - 1;
    }
    ]] *)
Definition execute (command : C) : M (State C) unit :=
  (len <- get_length ;;
   cur <- get_currentExecutionState ;;
   (if len - 1 >? cur then
      let nextCommand := cur + 1 in
      update_executedCommands (fun l => splice l nextCommand (len - nextCommand))
    else ret tt) ;;
   update_executedCommands (fun l => push l command) ;;
   call (command_execute command) ;;
   len' <- get_length ;;
   set_currentExecutionState (len' - 1))%js.

(** [[
    public undo () {
        if (this.currentExecutionState >= 0) {
            this.executedCommands[this.currentExecutionState--].undo();
        }
    }
    ]]
    The post-decrement yields the old cursor as the index and stores the
    new one before the element's [undo] is looked up and called. *)
Definition undo : M (State C) unit :=
  (cur <- get_currentExecutionState ;;
   if cur >=? 0 then
     set_currentExecutionState (cur - 1) ;;
     command <- element cur ;;
     call (command_undo command)
   else ret tt)%js.

(** [[
    public redo () {
        if (this.currentExecutionState < this.executedCommands.length - 1) {
            this.executedCommands[++this.currentExecutionState].execute();
        }
    }
    ]] *)
Definition redo : M (State C) unit :=
  (cur <- get_currentExecutionState ;;
   len <- get_length ;;
   if cur <? len - 1 then
     set_currentExecutionState (cur + 1) ;;
     command <- element (cur + 1) ;;
     call (command_execute command)
   else ret tt)%js.

End Methods.
End Invoker.

(** ** Call sequences *)

(** The three entry points of the [Invoker], as the trigger source uses them. *)
Inductive Call (C : Type) : Type :=
  | CallExecute (command : C)
  | CallUndo
  | CallRedo.
Arguments CallExecute {C} command.
Arguments CallUndo {C}.
Arguments CallRedo {C}.

Definition perform {C : Type} `{Command C} (c : Call C) : M (State C) unit :=
  match c with
  | CallExecute command => Invoker.execute command
  | CallUndo => Invoker.undo
  | CallRedo => Invoker.redo
  end.

(** Calls made one after the other in one piece of code: the first exception
    ends the sequence. *)
Fixpoint run {C : Type} `{Command C} (cs : list (Call C)) : M (State C) unit :=
  match cs with
  | [] => ret tt
  | c :: cs' => (perform c ;; run cs')%js
  end.

(** A fresh [Invoker] next to a heap [h]. *)
Definition fresh {C : Type} (h : Heap) : State C :=
  {| heap := h; invoker := new_Invoker |}.

(** The states the [Invoker] can be in: it starts fresh, and every call, one
    from an event handler that throws included, leaves the next state. *)
Inductive reachable {C : Type} `{Command C} : State C -> Prop :=
  | reachable_fresh (h : Heap) : reachable (fresh h)
  | reachable_call (s : State C) (c : Call C) :
      reachable s -> reachable (state_after (perform c s)).

(** The cursor invariant of the history: [-1 <= cursor <= length(log) - 1]. *)
Definition cursor_inv {C : Type} (s : State C) : Prop :=
  -1 <= cursor s <= Z.of_nat (length (log s)) - 1.

(** ** [execute] as the specification words it

    Written from the four numbered steps of the History Manager contract, to
    be compared with [Invoker.execute]. *)
Module HistoryManagerSpec.
Section Steps.

Context {C : Type} `{Command C}.

(** Step 1: if the cursor does not point at the last index of the log,
    discard all entries after the cursor, that is keep the entries at the
    indices [0..cursor]. *)
Definition discard_redo_branch : M (State C) unit :=
  fun s =>
    if decide (cursor s = Z.of_nat (length (log s)) - 1) then Normal tt s
    else
      Normal tt
        {| heap := heap s;
           invoker := {| executedCommands := take (Z.to_nat (cursor s + 1)) (log s);
                         currentExecutionState := cursor s |} |}.

(** Step 2: append the operation to the log. *)
Definition append (operation : C) : M (State C) unit :=
  fun s =>
    Normal tt
      {| heap := heap s;
         invoker := {| executedCommands := log s ++ [operation];
                       currentExecutionState := cursor s |} |}.

(** Step 3: invoke the operation's apply. It mutates the operation's target,
    that is the heap, and neither the log nor the cursor; a failure of apply
    propagates to the caller with the mutations made so far and no rollback. *)
Definition invoke_apply (operation : C) : M (State C) unit :=
  fun s =>
    match command_execute operation (heap s) with
    | Normal _ h' =>
        Normal tt
          {| heap := h';
             invoker := {| executedCommands := log s;
                           currentExecutionState := cursor s |} |}
    | Throw e h' =>
        Throw e
          {| heap := h';
             invoker := {| executedCommands := log s;
                           currentExecutionState := cursor s |} |}
    end.

(** Step 4: set the cursor to the index of the newly appended entry. *)
Definition cursor_to_last : M (State C) unit :=
  fun s =>
    Normal tt
      {| heap := heap s;
         invoker := {| executedCommands := log s;
                       currentExecutionState := Z.of_nat (length (log s)) - 1 |} |}.

Definition execute (operation : C) : M (State C) unit :=
  (discard_redo_branch ;;
   append operation ;;
   invoke_apply operation ;;
   cursor_to_last)%js.

End Steps.
End HistoryManagerSpec.

(** The log [Invoker.execute] holds when it calls the command: the array after
    the conditional [splice] and the [push]. *)
Definition log_on_execute {C : Type} (s : State C) (command : C) : list C :=
  push
    (if Z.of_nat (length (log s)) - 1 >? cursor s then
       splice (log s) (cursor s + 1)
              (Z.of_nat (length (log s)) - (cursor s + 1))
     else log s)
    command.

(** ** Commands that can run

    [applicable h c]: the reference [c] denotes a [ModifyCommand] of the heap
    whose receiver denotes an object. *)
Definition applicable (h : Heap) (c : cref) : bool :=
  match commands h !! c with
  | Some cmd => bool_decide (is_Some (objects h !! receiver (config cmd)))
  | None => false
  end.

(** The target of a command: the receiver its config was built with. *)
Definition target_of (h : Heap) (c : cref) : option oref :=
  (fun cmd => receiver (config cmd)) <$> commands h !! c.

(** Two heaps with the same objects and commands, up to the contents of the
    objects and the [previousValue] slots: the methods of a command change
    nothing else. *)
Definition same_shape (h h' : Heap) : Prop :=
  (forall o, is_Some (objects h' !! o) <-> is_Some (objects h !! o))
  /\ (forall c, config <$> commands h' !! c = config <$> commands h !! c).

(** ** The method calls behind a call sequence *)

Inductive Method : Type := MExecute | MUndo.

Definition invoke {C : Type} `{Command C} (mc : Method * C) : M Heap unit :=
  match mc with
  | (MExecute, c) => command_execute c
  | (MUndo, c) => command_undo c
  end.

(** The method of a command that a call of the [Invoker] reaches in state [s],
    if any: its guards and index expressions, without the effects. *)
Definition dispatched {C : Type} (c : Call C) (s : State C) : option (Method * C) :=
  match c with
  | CallExecute command => Some (MExecute, command)
  | CallUndo =>
      if cursor s >=? 0
      then (fun command => (MUndo, command)) <$> index (log s) (cursor s)
      else None
  | CallRedo =>
      if cursor s <? Z.of_nat (length (log s)) - 1
      then (fun command => (MExecute, command)) <$> index (log s) (cursor s + 1)
      else None
  end.

(** The method calls a call sequence makes, in order. *)
Fixpoint trace {C : Type} `{Command C} (cs : list (Call C)) (s : State C)
  : list (Method * C) :=
  match cs with
  | [] => []
  | c :: cs' =>
      match dispatched c s with
      | Some mc => [mc]
      | None => []
      end ++ trace cs' (state_after (perform c s))
  end.

(** Method calls made directly on the heap, one after the other. *)
Fixpoint replay {C : Type} `{Command C} (t : list (Method * C)) : M Heap unit :=
  match t with
  | [] => ret tt
  | mc :: t' => (invoke mc ;; replay t')%js
  end.

(** The method calls on the commands whose target is [Y]. *)
Definition on_target (h : Heap) (Y : oref) (mc : Method * cref) : bool :=
  bool_decide (target_of h mc.2 = Some Y).

(** The heap with the contents of object [Y] replaced. *)
Definition with_object (Y : oref) (objY : gmap string value) (h : Heap) : Heap :=
  {| objects := <[Y := objY]> (objects h); commands := commands h |}.

Definition map_state {S A : Type} (f : S -> S) (r : Completion S A)
  : Completion S A :=
  match r with
  | Normal a s => Normal a (f s)
  | Throw e s => Throw e (f s)
  end.

Definition call_applicable (h : Heap) (c : Call cref) : bool :=
  match c with
  | CallExecute command => applicable h command
  | CallUndo | CallRedo => true
  end.

(** A state in which every call returns: the invariant holds and every entry
    of the log can run. *)
Definition well_formed (s : State cref) : Prop :=
  cursor_inv s /\ Forall (fun c => applicable (heap s) c = true) (log s).

(** [h] and [hy] descend from [h0] and hold the same object [Y] and the same
    commands on [Y]. *)
Definition agree_on (h0 : Heap) (Y : oref) (h hy : Heap) : Prop :=
  same_shape h0 h
  /\ same_shape h0 hy
  /\ objects h !! Y = objects hy !! Y
  /\ (forall c, target_of h0 c = Some Y -> commands h !! c = commands hy !! c).

(** ** The history as two stacks *)

(** The entries at the indices [0..cursor], which [undo] walks back, and the
    entries after the cursor, which [redo] walks forward. *)
Definition applied {C : Type} (s : State C) : list C :=
  take (Z.to_nat (cursor s + 1)) (log s).

Definition redoable {C : Type} (s : State C) : list C :=
  drop (Z.to_nat (cursor s + 1)) (log s).

(** [execute] called on each command of a list, as method calls. *)
Definition executes {C : Type} (l : list C) : list (Method * C) :=
  map (fun c => (MExecute, c)) l.

(** Every [execute(c)] of the call sequence is made when [c] is not among the
    applied entries: no command object is applied twice at a time. *)
Fixpoint executes_unapplied (cs : list (Call cref)) (s : State cref) : Prop :=
  match cs with
  | [] => True
  | c :: cs' =>
      match c with
      | CallExecute command => command ∉ applied s
      | CallUndo | CallRedo => True
      end
      /\ executes_unapplied cs' (state_after (perform c s))
  end.

(** The heap [h] holds what executing the commands [A] in order on [h0]
    gives: the same fields, and in each command of [A] the value its field
    had when its turn came. *)
Definition replays (h0 : Heap) (A : list cref) (h : Heap) : Prop :=
  same_shape h0 h
  /\ (forall P c Q, A = P ++ c :: Q ->
        exists hP cmd,
          replay (executes P) h0 = Normal tt hP
          /\ commands h !! c = Some cmd
          /\ field hP (receiver (config cmd)) (modificationType (config cmd))
             = Some (previousValue cmd))
  /\ (exists hE,
        replay (executes A) h0 = Normal tt hE
        /\ forall o key, field h o key = field hE o key).

Definition consistent (h0 : Heap) (s : State cref) : Prop :=
  well_formed s /\ NoDup (log s) /\ replays h0 (applied s) (heap s).

(** ** The claims that fail as they are worded *)

(** Branch discard as worded: after [execute(o1)], [execute(o2)], [undo()],
    [execute(o3)] a [redo()] changes nothing and the log is exactly
    [[o1; o3]]. *)
Definition branch_discard_exact (s : State cref) (o1 o2 o3 : cref) : Prop :=
  exists s',
    run [CallExecute o1; CallExecute o2; CallUndo; CallExecute o3] s = Normal tt s'
    /\ Invoker.redo s' = Normal tt s'
    /\ log s' = [o1; o3].

(** [execute] always succeeds: the call returns. *)
Definition execute_always_succeeds {C : Type} `{Command C}
    (s : State C) (operation : C) : Prop :=
  exists s', Invoker.execute operation s = Normal tt s'.

(** [n] executes on a fresh [Invoker] followed by [n] undos give every field
    of every target its value from before the first execute. A field is
    what [target[key]] reads: a property that was missing reads [undefined]
    before and after. *)
Definition undos_restore (h : Heap) (ops : list cref) : Prop :=
  exists s',
    run (map CallExecute ops ++ repeat CallUndo (length ops)) (fresh h)
    = Normal tt s'
    /\ forall o key, field (heap s') o key = field h o key.

(** Revert before any apply is guarded: on a command that is as its
    constructor left it, the call leaves [target[mutationKey]] as it is, or
    it fails. *)
Definition revert_guarded (h : Heap) (this : cref) : Prop :=
  forall cfg, commands h !! this = Some (new_ModifyCommand cfg) ->
    (exists h', ModifyCommand.undo this h = Normal tt h'
                /\ field h' (receiver cfg) (modificationType cfg)
                   = field h (receiver cfg) (modificationType cfg))
    \/ (exists e h', ModifyCommand.undo this h = Throw e h').

(** ** The scenario of the specification

    One target [{value: "A"}] and two commands on its key [value], never
    executed so far. *)
Module Scenario.

Definition target : oref := ORef 0.
Definition set_B : cref := CRef 0.
Definition set_C : cref := CRef 1.

Definition set_value (v : string) : ModifyCommand :=
  new_ModifyCommand
    {| receiver := target; changedValue := v; modificationType := "value" |}.

Definition start : Heap :=
  {| objects := {[ target := {[ "value"%string := VString "A" ]} ]};
     commands := {[ set_B := set_value "B"; set_C := set_value "C" ]} |}.

(** What the scenario looks at after a call sequence: whether it returned,
    [target.value], the log and the cursor. *)
Definition observe (cs : list (Call cref))
  : bool * option value * list cref * Z :=
  let r := run cs (fresh start) in
  (returns r, field (heap (state_after r)) target "value",
   log (state_after r), cursor (state_after r)).

(** The state after a call sequence on a fresh [Invoker]. *)
Definition after (cs : list (Call cref)) : State cref :=
  state_after (run cs (fresh start)).

(** A second target [{value: "X"}] with a command of its own. *)
Definition other : oref := ORef 1.
Definition set_other : cref := CRef 2.

Definition two_targets : Heap :=
  {| objects := {[ target := {[ "value"%string := VString "A" ]};
                   other := {[ "value"%string := VString "X" ]} ]};
     commands :=
       {[ set_B := set_value "B";
          set_other :=
            new_ModifyCommand
              {| receiver := other; changedValue := "Y";
                 modificationType := "value" |} ]} |}.

Definition interleaved : list (Call cref) :=
  [CallExecute set_B; CallExecute set_other; CallUndo; CallUndo; CallRedo].

(** The command [set_B] when its target no longer exists. *)
Definition target_gone : Heap :=
  {| objects := ∅; commands := {[ set_B := set_value "B" ]} |}.

(** A history in which no command is executed while it is applied. *)
Definition history : list (Call cref) :=
  [CallExecute set_B; CallExecute set_C; CallUndo; CallUndo; CallRedo;
   CallExecute set_C].

End Scenario.

(** ** The concrete commands and the page

    [ChangeTextCommand], [ChangeTextColorCommand] and [ChangeFontSizeCommand]
    and the [load] listener that builds one of each on the [h5] element and
    wires them to the buttons. The DOM is an outside collaborator: the
    element and its style object are receivers like any other, with the
    properties [textContent], [color] and [fontSize] read and written as
    strings; [element.style] is handed out by the DOM, the same object every
    time, and is a parameter here; the container and the five buttons are
    taken as found by [querySelector], the [h5] element may be missing
    ([null]). *)

Module ConcreteCommandConfig.
Record t : Type := { receiver : oref; changedValue : string }.
End ConcreteCommandConfig.

(** [new]: the object gets a reference that no command of the heap has. *)
Definition fresh_cref (h : Heap) : cref :=
  CRef (base.fresh (set_map (D := gset nat) cref_id (dom (commands h)))).

Definition new_command (cmd : ModifyCommand) : M Heap cref :=
  fun h =>
    Normal (fresh_cref h)
           {| objects := objects h;
              commands := <[fresh_cref h := cmd]> (commands h) |}.

Module Page.
Section Dom.

Variable style : oref -> oref.

(** [element.style]: a [TypeError] when the element is [null]. *)
Definition get_style (element : oref) : M Heap oref :=
  fun h =>
    match objects h !! element with
    | Some _ => Normal (style element) h
    | None => Throw TypeError h
    end.

(** [[
    constructor(concreteCommandConfig: ConcreteCommandConfig) {
        super({
            receiver: concreteCommandConfig.receiver,
            changedValue: concreteCommandConfig.changedValue,
            modificationType: 'textContent'
        });
    }
    ]] *)
Definition ChangeTextCommand (concreteCommandConfig : ConcreteCommandConfig.t)
  : M Heap cref :=
  new_command
    (new_ModifyCommand
       {| receiver := ConcreteCommandConfig.receiver concreteCommandConfig;
          changedValue := ConcreteCommandConfig.changedValue concreteCommandConfig;
          modificationType := "textContent" |}).

(** As above with [receiver: concreteCommandConfig.receiver.style] and
    [modificationType: 'color']; the argument of [super] is evaluated before
    the object exists. *)
Definition ChangeTextColorCommand (concreteCommandConfig : ConcreteCommandConfig.t)
  : M Heap cref :=
  (s <- get_style (ConcreteCommandConfig.receiver concreteCommandConfig) ;;
   new_command
     (new_ModifyCommand
        {| receiver := s;
           changedValue := ConcreteCommandConfig.changedValue concreteCommandConfig;
           modificationType := "color" |}))%js.

(** As above with [modificationType: 'fontSize']. *)
Definition ChangeFontSizeCommand (concreteCommandConfig : ConcreteCommandConfig.t)
  : M Heap cref :=
  (s <- get_style (ConcreteCommandConfig.receiver concreteCommandConfig) ;;
   new_command
     (new_ModifyCommand
        {| receiver := s;
           changedValue := ConcreteCommandConfig.changedValue concreteCommandConfig;
           modificationType := "fontSize" |}))%js.

(** The commands the [load] listener keeps in its closure. *)
Record Commands : Type := {
  increaseFontSizeCommand : cref;
  changeColorToBlueCommand : cref;
  changeTextCommand : cref
}.

(** [[
    let increaseFontSizeCommand: Command = new ChangeFontSizeCommand({ receiver: mainText, changedValue: '25px' });
    let changeColorToBlueCommand: Command = new ChangeTextColorCommand({ receiver: mainText, changedValue: 'blue' });
    let changeTextCommand: Command = new ChangeTextCommand({ receiver: mainText, changedValue: 'TEXT HAS BEEN CHANGED' });
    let invoker: Invoker = new Invoker();
    ]]
    The [Invoker] is the fresh one of the state the clicks start from. *)
Definition load (mainText : oref) : M Heap Commands :=
  (f <- ChangeFontSizeCommand
          {| ConcreteCommandConfig.receiver := mainText;
             ConcreteCommandConfig.changedValue := "25px" |} ;;
   c <- ChangeTextColorCommand
          {| ConcreteCommandConfig.receiver := mainText;
             ConcreteCommandConfig.changedValue := "blue" |} ;;
   t <- ChangeTextCommand
          {| ConcreteCommandConfig.receiver := mainText;
             ConcreteCommandConfig.changedValue := "TEXT HAS BEEN CHANGED" |} ;;
   ret {| increaseFontSizeCommand := f;
          changeColorToBlueCommand := c;
          changeTextCommand := t |})%js.

End Dom.

Inductive Button : Type :=
  | changeColorButton
  | changeFontSizeButton
  | changeTextButton
  | redoButton
  | undoButton.

(** The click listeners that [attachChangeEvents], [attachRedoEvent] and
    [attachUndoEvent] add: [data.invoker.execute(data.command)],
    [data.invoker.redo()], [data.invoker.undo()]. *)
Definition click (p : Commands) (b : Button) : Call cref :=
  match b with
  | changeColorButton => CallExecute (changeColorToBlueCommand p)
  | changeFontSizeButton => CallExecute (increaseFontSizeCommand p)
  | changeTextButton => CallExecute (changeTextCommand p)
  | redoButton => CallRedo
  | undoButton => CallUndo
  end.

(** The command behind a change button. *)
Definition command_of (p : Commands) (b : Button) : option cref :=
  match b with
  | changeColorButton => Some (changeColorToBlueCommand p)
  | changeFontSizeButton => Some (increaseFontSizeCommand p)
  | changeTextButton => Some (changeTextCommand p)
  | redoButton | undoButton => None
  end.

(** The config [load] builds the command of a change button with. *)
Definition config_of (style : oref -> oref) (mainText : oref) (b : Button)
  : option ModifyCommandConfig :=
  match b with
  | changeColorButton =>
      Some {| receiver := style mainText; changedValue := "blue";
              modificationType := "color" |}
  | changeFontSizeButton =>
      Some {| receiver := style mainText; changedValue := "25px";
              modificationType := "fontSize" |}
  | changeTextButton =>
      Some {| receiver := mainText; changedValue := "TEXT HAS BEEN CHANGED";
              modificationType := "textContent" |}
  | redoButton | undoButton => None
  end.

End Page.

(** A page: the [h5] element with its text, and its style object. *)
Module PageScenario.

Definition h5 : oref := ORef 0.
Definition style (element : oref) : oref := ORef (S (oref_id element)).

Definition document : Heap :=
  {| objects :=
       {[ h5 := {[ "textContent"%string := VString "Some text" ]};
          style h5 := {[ "color"%string := VString "";
                         "fontSize"%string := VString "" ]} ]};
     commands := ∅ |}.

(** What [load] returns there. *)
Definition page : Page.Commands :=
  {| Page.increaseFontSizeCommand := CRef 0;
     Page.changeColorToBlueCommand := CRef 1;
     Page.changeTextCommand := CRef 2 |}.

Definition loaded : Heap :=
  {| objects := objects document;
     commands :=
       {[ CRef 0 := new_ModifyCommand
                      {| receiver := style h5; changedValue := "25px";
                         modificationType := "fontSize" |};
          CRef 1 := new_ModifyCommand
                      {| receiver := style h5; changedValue := "blue";
                         modificationType := "color" |};
          CRef 2 := new_ModifyCommand
                      {| receiver := h5;
                         changedValue := "TEXT HAS BEEN CHANGED";
                         modificationType := "textContent" |} ]} |}.

Definition clicks : list Page.Button :=
  [Page.changeColorButton; Page.undoButton; Page.changeTextButton;
   Page.changeFontSizeButton; Page.undoButton; Page.redoButton].

End PageScenario.

(** * Properties *)

(** ** Arrays *)

Lemma splice_tail {A : Type} (l : list A) (start : Z) :
  0 <= start <= Z.of_nat (length l) ->
  splice l start (Z.of_nat (length l) - start) = take (Z.to_nat start) l.
Proof.
  intros Hs. unfold splice.
  destruct (Z.ltb_spec start 0) as [Hneg|_]; [lia|].
  rewrite (Z.min_l start) by lia.
  rewrite Z.max_l by lia. rewrite Z.min_l by lia.
  replace (start + (Z.of_nat (length l) - start)) with (Z.of_nat (length l)) by lia.
  rewrite Nat2Z.id, drop_all. apply app_nil_r.
Qed.

Lemma index_push_last {A : Type} (l : list A) (x : A) :
  index (push l x) (Z.of_nat (length l)) = Some x.
Proof.
  unfold index, push.
  destruct (Z.ltb_spec (Z.of_nat (length l)) 0) as [Hneg|_]; [lia|].
  rewrite Nat2Z.id. apply list_lookup_middle. reflexivity.
Qed.

Lemma length_push {A : Type} (l : list A) (x : A) :
  Z.of_nat (length (push l x)) = Z.of_nat (length l) + 1.
Proof. unfold push. rewrite length_app. simpl. lia. Qed.

Lemma index_Some_range {A : Type} (l : list A) (i : Z) (x : A) :
  index l i = Some x -> 0 <= i < Z.of_nat (length l).
Proof.
  unfold index. destruct (Z.ltb_spec i 0) as [|Hi]; [discriminate|].
  intros Hl. apply lookup_lt_Some in Hl. lia.
Qed.

Lemma index_in_range {A : Type} (l : list A) (i : Z) :
  0 <= i < Z.of_nat (length l) -> is_Some (index l i).
Proof.
  intros Hi. unfold index. destruct (Z.ltb_spec i 0) as [|_]; [lia|].
  apply lookup_lt_is_Some. lia.
Qed.

(** ** The methods of the [Invoker], unfolded *)

Section InvokerFacts.

Context {C : Type} `{Command C}.

Lemma execute_unfold (command : C) (s : State C) :
  Invoker.execute command s =
  match command_execute command (heap s) with
  | Normal _ h =>
      Normal tt
        {| heap := h;
           invoker :=
             {| executedCommands := log_on_execute s command;
                currentExecutionState :=
                  Z.of_nat (length (log_on_execute s command)) - 1 |} |}
  | Throw e h =>
      Throw e
        {| heap := h;
           invoker := {| executedCommands := log_on_execute s command;
                         currentExecutionState := cursor s |} |}
  end.
Proof.
  unfold Invoker.execute, log_on_execute, bind, Invoker.get_length,
    Invoker.get_currentExecutionState, gets. cbn.
  destruct (Z.of_nat (length (log s)) - 1 >? cursor s);
    unfold Invoker.update_executedCommands, Invoker.call, modify, ret; cbn;
    destruct (command_execute command (heap s)) as [[] h|e h]; reflexivity.
Qed.

Lemma undo_unfold (s : State C) :
  Invoker.undo s =
  if cursor s >=? 0 then
    match index (log s) (cursor s) with
    | Some command =>
        match command_undo command (heap s) with
        | Normal _ h =>
            Normal tt
              {| heap := h;
                 invoker := {| executedCommands := log s;
                               currentExecutionState := cursor s - 1 |} |}
        | Throw e h =>
            Throw e
              {| heap := h;
                 invoker := {| executedCommands := log s;
                               currentExecutionState := cursor s - 1 |} |}
        end
    | None =>
        Throw TypeError
          {| heap := heap s;
             invoker := {| executedCommands := log s;
                           currentExecutionState := cursor s - 1 |} |}
    end
  else Normal tt s.
Proof.
  unfold Invoker.undo, bind, Invoker.get_currentExecutionState, gets. cbn.
  destruct (cursor s >=? 0); [|reflexivity].
  unfold Invoker.set_currentExecutionState, Invoker.element, Invoker.call,
    modify. cbn.
  destruct (index (log s) (cursor s)) as [command|]; [cbn|reflexivity].
  destruct (command_undo command (heap s)) as [[] h|e h]; reflexivity.
Qed.

Lemma redo_unfold (s : State C) :
  Invoker.redo s =
  if cursor s <? Z.of_nat (length (log s)) - 1 then
    match index (log s) (cursor s + 1) with
    | Some command =>
        match command_execute command (heap s) with
        | Normal _ h =>
            Normal tt
              {| heap := h;
                 invoker := {| executedCommands := log s;
                               currentExecutionState := cursor s + 1 |} |}
        | Throw e h =>
            Throw e
              {| heap := h;
                 invoker := {| executedCommands := log s;
                               currentExecutionState := cursor s + 1 |} |}
        end
    | None =>
        Throw TypeError
          {| heap := heap s;
             invoker := {| executedCommands := log s;
                           currentExecutionState := cursor s + 1 |} |}
    end
  else Normal tt s.
Proof.
  unfold Invoker.redo, bind, Invoker.get_currentExecutionState,
    Invoker.get_length, gets. cbn.
  destruct (cursor s <? Z.of_nat (length (log s)) - 1); [|reflexivity].
  unfold Invoker.set_currentExecutionState, Invoker.element, Invoker.call,
    modify. cbn.
  destruct (index (log s) (cursor s + 1)) as [command|]; [cbn|reflexivity].
  destruct (command_execute command (heap s)) as [[] h|e h]; reflexivity.
Qed.

End InvokerFacts.

(** ** The cursor invariant and the log *)

Section History.

Context {C : Type} `{Command C}.

(** Under the invariant the conditional [splice] keeps the applied prefix. *)
Lemma log_on_execute_prefix (s : State C) (command : C) :
  cursor_inv s ->
  log_on_execute s command
  = take (Z.to_nat (cursor s + 1)) (log s) ++ [command].
Proof.
  intros [Hlo Hhi]. unfold log_on_execute, push. f_equal.
  destruct (Z.gtb_spec (Z.of_nat (length (log s)) - 1) (cursor s)) as [Hgt|Hle].
  - apply splice_tail. lia.
  - symmetry. apply take_ge. lia.
Qed.

Lemma log_on_execute_length (s : State C) (command : C) :
  cursor_inv s ->
  Z.of_nat (length (log_on_execute s command)) = cursor s + 2.
Proof.
  intros Hinv. rewrite log_on_execute_prefix by exact Hinv.
  destruct Hinv as [Hlo Hhi].
  rewrite length_app, length_take. simpl. lia.
Qed.

Lemma cursor_inv_fresh (h : Heap) : cursor_inv (fresh (C := C) h).
Proof. unfold cursor_inv, cursor, log. simpl. lia. Qed.

Lemma cursor_inv_execute (s : State C) (command : C) :
  cursor_inv s -> cursor_inv (state_after (Invoker.execute command s)).
Proof.
  intros Hinv. pose proof (log_on_execute_length s command Hinv) as Hlen.
  rewrite execute_unfold.
  destruct (command_execute command (heap s)) as [[] h|e h];
    unfold cursor_inv, cursor, log in *; simpl in *; lia.
Qed.

Lemma cursor_inv_undo (s : State C) :
  cursor_inv s -> cursor_inv (state_after (Invoker.undo s)).
Proof.
  intros Hinv. rewrite undo_unfold.
  destruct (Z.geb_spec (cursor s) 0) as [Hge|Hlt]; [|exact Hinv].
  destruct (index (log s) (cursor s)) as [command|];
    [destruct (command_undo command (heap s)) as [[] h|e h]|];
    unfold cursor_inv, cursor, log in *; simpl in *; lia.
Qed.

Lemma cursor_inv_redo (s : State C) :
  cursor_inv s -> cursor_inv (state_after (Invoker.redo s)).
Proof.
  intros Hinv. rewrite redo_unfold.
  destruct (Z.ltb_spec (cursor s) (Z.of_nat (length (log s)) - 1)) as [Hlt|Hge];
    [|exact Hinv].
  destruct (index (log s) (cursor s + 1)) as [command|];
    [destruct (command_execute command (heap s)) as [[] h|e h]|];
    unfold cursor_inv, cursor, log in *; simpl in *; lia.
Qed.

Lemma cursor_inv_perform (s : State C) (c : Call C) :
  cursor_inv s -> cursor_inv (state_after (perform c s)).
Proof.
  destruct c; simpl;
    [apply cursor_inv_execute | apply cursor_inv_undo | apply cursor_inv_redo].
Qed.

Lemma reachable_cursor_inv (s : State C) : reachable s -> cursor_inv s.
Proof.
  induction 1 as [h|s c _ IH].
  - apply cursor_inv_fresh.
  - apply cursor_inv_perform, IH.
Qed.

(** C4. The cursor invariant [-1 <= cursor <= length(log) - 1] holds in every
    reachable state of the [Invoker], the fresh one with cursor [-1] and an
    empty log included, and every [execute], [undo] and [redo] call made
    there leaves a state in which it holds again, whether the call returns
    or throws. *)
Theorem cursor_invariant (s : State C) :
  reachable s ->
  cursor_inv s /\ forall c : Call C, cursor_inv (state_after (perform c s)).
Proof.
  intros Hr. pose proof (reachable_cursor_inv s Hr) as Hinv.
  split; [exact Hinv|]. intros c. apply cursor_inv_perform, Hinv.
Qed.

(** C10. [undo] and [redo] leave the log as it is, in every state and
    whether they return or throw: [executedCommands] has the same entries
    in the same order afterwards, only the cursor and the heap the
    command's method ran on can differ. *)
Theorem undo_redo_keep_log (s : State C) :
  log (state_after (Invoker.undo s)) = log s
  /\ log (state_after (Invoker.redo s)) = log s.
Proof.
  split.
  - rewrite undo_unfold. destruct (cursor s >=? 0); [|reflexivity].
    destruct (index (log s) (cursor s)) as [command|]; [|reflexivity].
    destruct (command_undo command (heap s)) as [[] h|e h]; reflexivity.
  - rewrite redo_unfold.
    destruct (cursor s <? Z.of_nat (length (log s)) - 1); [|reflexivity].
    destruct (index (log s) (cursor s + 1)) as [command|]; [|reflexivity].
    destruct (command_execute command (heap s)) as [[] h|e h]; reflexivity.
Qed.

Lemma undo_at_start (s : State C) :
  cursor s < 0 -> Invoker.undo s = Normal tt s.
Proof.
  intros Hc. rewrite undo_unfold.
  destruct (Z.geb_spec (cursor s) 0) as [Hge|_]; [lia|reflexivity].
Qed.

Lemma redo_at_end (s : State C) :
  Z.of_nat (length (log s)) - 1 <= cursor s -> Invoker.redo s = Normal tt s.
Proof.
  intros Hc. rewrite redo_unfold.
  destruct (Z.ltb_spec (cursor s) (Z.of_nat (length (log s)) - 1)) as [Hlt|_];
    [lia|reflexivity].
Qed.

(** C6. At the boundaries of the history [undo] and [redo] are no-ops: with
    the cursor at [-1], [undo] returns without an exception and leaves the
    whole state (cursor, log, heap) as it was; with the cursor at
    [length(log) - 1], [redo] does the same. *)
Theorem boundary_noops (s : State C) :
  (cursor s = -1 -> Invoker.undo s = Normal tt s)
  /\ (cursor s = Z.of_nat (length (log s)) - 1 -> Invoker.redo s = Normal tt s).
Proof.
  split; intros Hc; [apply undo_at_start | apply redo_at_end]; lia.
Qed.

(** [Invoker.execute] against the four steps of the contract. *)
Lemma execute_refines_steps (s : State C) (operation : C) :
  cursor_inv s ->
  Invoker.execute operation s = HistoryManagerSpec.execute operation s.
Proof.
  intros Hinv. rewrite execute_unfold, log_on_execute_prefix by exact Hinv.
  unfold HistoryManagerSpec.execute, HistoryManagerSpec.discard_redo_branch,
    HistoryManagerSpec.append, HistoryManagerSpec.invoke_apply,
    HistoryManagerSpec.cursor_to_last, bind.
  destruct (decide (cursor s = Z.of_nat (length (log s)) - 1)) as [Heq|Hne]; cbn.
  - rewrite take_ge by lia.
    destruct (command_execute operation (heap s)) as [[] h|e h]; reflexivity.
  - destruct (command_execute operation (heap s)) as [[] h|e h]; reflexivity.
Qed.

(** [Invoker.execute] in a state that satisfies the invariant, written out:
    the heap is the one the command's [execute] leaves, the log is the
    applied entries followed by the command, and the cursor moves to the
    last index only when the command returns. *)
Lemma execute_outcome (s : State C) (operation : C) :
  cursor_inv s ->
  Invoker.execute operation s =
  match command_execute operation (heap s) with
  | Normal _ h =>
      Normal tt
        {| heap := h;
           invoker :=
             {| executedCommands := applied s ++ [operation];
                currentExecutionState :=
                  Z.of_nat (length (applied s ++ [operation])) - 1 |} |}
  | Throw e h =>
      Throw e
        {| heap := h;
           invoker := {| executedCommands := applied s ++ [operation];
                         currentExecutionState := cursor s |} |}
  end.
Proof.
  intros Hinv. rewrite execute_unfold, log_on_execute_prefix by exact Hinv.
  reflexivity.
Qed.

(** C5, as the code has it. In every reachable state [execute(operation)]
    is the sequence of the four steps of the contract, in that order:
    discard the entries after the cursor when it is not at the last index,
    append the operation, invoke its apply, whose effect on the target is
    the effect of the call, set the cursor to [length(log) - 1]. It has no
    error condition of its own, but it does not always succeed: it returns
    exactly when the operation's apply returns, and when apply throws the
    exception leaves [execute] after steps 1 to 3, with the entries after
    the cursor discarded, the operation in the log and the cursor
    unmoved. *)
Theorem execute_steps (s : State C) (operation : C) :
  reachable s ->
  Invoker.execute operation s = HistoryManagerSpec.execute operation s
  /\ Invoker.execute operation s
     = match command_execute operation (heap s) with
       | Normal _ h =>
           Normal tt
             {| heap := h;
                invoker :=
                  {| executedCommands := applied s ++ [operation];
                     currentExecutionState :=
                       Z.of_nat (length (applied s ++ [operation])) - 1 |} |}
       | Throw e h =>
           Throw e
             {| heap := h;
                invoker := {| executedCommands := applied s ++ [operation];
                              currentExecutionState := cursor s |} |}
       end
  /\ returns (Invoker.execute operation s)
     = returns (command_execute operation (heap s)).
Proof.
  intros Hr. pose proof (reachable_cursor_inv s Hr) as Hinv.
  split; [apply execute_refines_steps, Hinv|].
  split; [apply execute_outcome, Hinv|].
  rewrite execute_unfold.
  destruct (command_execute operation (heap s)) as [[] h|e h]; reflexivity.
Qed.

End History.

(** ** The scenario of the specification, run *)

Example scenario_execute :
  Scenario.observe [CallExecute Scenario.set_B]
  = (true, Some (VString "B"), [Scenario.set_B], 0).
Proof. vm_compute. reflexivity. Qed.

Example scenario_undo :
  Scenario.observe [CallExecute Scenario.set_B; CallUndo]
  = (true, Some (VString "A"), [Scenario.set_B], -1).
Proof. vm_compute. reflexivity. Qed.

Example scenario_redo :
  Scenario.observe [CallExecute Scenario.set_B; CallUndo; CallRedo]
  = (true, Some (VString "B"), [Scenario.set_B], 0).
Proof. vm_compute. reflexivity. Qed.

Example scenario_same_command_twice :
  Scenario.observe
    [CallExecute Scenario.set_B; CallExecute Scenario.set_B; CallUndo; CallUndo]
  = (true, Some (VString "B"), [Scenario.set_B; Scenario.set_B], -1).
Proof. vm_compute. reflexivity. Qed.

Example scenario_null_command :
  Scenario.observe [CallExecute (CRef 7)]
  = (false, Some (VString "A"), [CRef 7], -1).
Proof. vm_compute. reflexivity. Qed.

Example scenario_trace :
  trace Scenario.interleaved (fresh Scenario.two_targets)
  = [(MExecute, Scenario.set_B); (MExecute, Scenario.set_other);
     (MUndo, Scenario.set_other); (MUndo, Scenario.set_B);
     (MExecute, Scenario.set_B)].
Proof. vm_compute. reflexivity. Qed.

(** C5 as worded fails: [execute] does not always succeed. With the target of
    [set_B] gone, [set_B.execute()] throws and so does [execute(set_B)] on a
    fresh [Invoker]; so does [execute] of a reference that is no command. *)
Lemma execute_always_succeeds_fails :
  reachable (fresh (C := cref) Scenario.target_gone)
  /\ commands Scenario.target_gone !! Scenario.set_B
     = Some (Scenario.set_value "B")
  /\ ~ execute_always_succeeds (fresh Scenario.target_gone) Scenario.set_B
  /\ ~ execute_always_succeeds (fresh Scenario.start) (CRef 7).
Proof.
  split; [apply reachable_fresh|]. split; [vm_compute; reflexivity|].
  split; intros [s' Hs']; vm_compute in Hs'; discriminate.
Qed.

Example scenario_target_gone :
  let r := Invoker.execute Scenario.set_B (fresh Scenario.target_gone) in
  (returns r, log (state_after r), cursor (state_after r))
  = (false, [Scenario.set_B], -1).
Proof. vm_compute. reflexivity. Qed.

Example scenario_full :
  Scenario.observe
    [CallExecute Scenario.set_B; CallUndo; CallRedo;
     CallExecute Scenario.set_C; CallUndo; CallUndo; CallUndo]
  = (true, Some (VString "A"), [Scenario.set_B; Scenario.set_C], -1).
Proof. vm_compute. reflexivity. Qed.

(** ** The methods of [ModifyCommand] on the heap *)

Section ModifyCommandFacts.

Variables (h : Heap) (this : cref) (cmd : ModifyCommand).
Variable obj : gmap string value.
Hypothesis Hcmd : commands h !! this = Some cmd.
Hypothesis Hobj : objects h !! receiver (config cmd) = Some obj.

Lemma execute_heap :
  ModifyCommand.execute this h =
  Normal tt
    {| objects :=
         <[receiver (config cmd) :=
             set_property obj (modificationType (config cmd))
                          (VString (changedValue (config cmd)))]> (objects h);
       commands :=
         <[this := {| config := config cmd;
                      previousValue :=
                        get_property obj (modificationType (config cmd)) |}]>
           (commands h) |}.
Proof.
  unfold ModifyCommand.execute, bind, ModifyCommand.self.
  rewrite Hcmd. unfold ModifyCommand.read_receiver. rewrite Hobj.
  unfold ModifyCommand.set_previousValue. rewrite Hcmd.
  unfold ModifyCommand.write_receiver. cbn. rewrite Hobj. reflexivity.
Qed.

Lemma undo_heap :
  ModifyCommand.undo this h =
  Normal tt
    {| objects :=
         <[receiver (config cmd) :=
             set_property obj (modificationType (config cmd))
                          (previousValue cmd)]> (objects h);
       commands := commands h |}.
Proof.
  unfold ModifyCommand.undo, bind, ModifyCommand.self.
  rewrite Hcmd. unfold ModifyCommand.write_receiver. rewrite Hobj.
  reflexivity.
Qed.

End ModifyCommandFacts.

Lemma get_set_property_eq (obj : gmap string value) (key : string) (v : value) :
  get_property (set_property obj key v) key = v.
Proof. unfold get_property, set_property. by rewrite lookup_insert_eq. Qed.

Lemma get_set_property_ne (obj : gmap string value) (key key' : string) (v : value) :
  key <> key' ->
  get_property (set_property obj key v) key' = get_property obj key'.
Proof.
  intros Hne. unfold get_property, set_property. by rewrite lookup_insert_ne.
Qed.

Lemma set_set_property (obj : gmap string value) (key : string) (v w : value) :
  set_property (set_property obj key v) key w = set_property obj key w.
Proof. unfold set_property. apply insert_insert_eq. Qed.

Lemma applicable_inv (h : Heap) (c : cref) :
  applicable h c = true ->
  exists cmd obj,
    commands h !! c = Some cmd /\ objects h !! receiver (config cmd) = Some obj.
Proof.
  unfold applicable. destruct (commands h !! c) as [cmd|]; [|discriminate].
  intros Hb. apply bool_decide_eq_true in Hb as [obj Hobj]. eauto.
Qed.

Lemma not_applicable_execute (h : Heap) (c : cref) :
  applicable h c = false -> ModifyCommand.execute c h = Throw TypeError h.
Proof.
  unfold applicable, ModifyCommand.execute, bind, ModifyCommand.self.
  destruct (commands h !! c) as [cmd|]; [|reflexivity].
  intros Hb. apply bool_decide_eq_false in Hb.
  unfold ModifyCommand.read_receiver.
  destruct (objects h !! receiver (config cmd)) as [obj|] eqn:Hobj;
    [exfalso; apply Hb; eauto | reflexivity].
Qed.

Lemma not_applicable_undo (h : Heap) (c : cref) :
  applicable h c = false -> ModifyCommand.undo c h = Throw TypeError h.
Proof.
  unfold applicable, ModifyCommand.undo, bind, ModifyCommand.self.
  destruct (commands h !! c) as [cmd|]; [|reflexivity].
  intros Hb. apply bool_decide_eq_false in Hb.
  unfold ModifyCommand.write_receiver.
  destruct (objects h !! receiver (config cmd)) as [obj|] eqn:Hobj;
    [exfalso; apply Hb; eauto | reflexivity].
Qed.

(** C8. On every call [ModifyCommand.execute] stores the current value of
    [target[mutationKey]] in [previousValue] and then writes the new value
    into [target[mutationKey]]. Hence a second [execute] with no [undo] in
    between leaves [previousValue] equal to the new value, and an [undo]
    after it leaves the target at the new value: when the new value differs
    from the original one, the original value is not restored. *)
Theorem repeated_apply (h : Heap) (this : cref) (cmd : ModifyCommand)
    (obj : gmap string value) :
  commands h !! this = Some cmd ->
  objects h !! receiver (config cmd) = Some obj ->
  let target := receiver (config cmd) in
  let key := modificationType (config cmd) in
  let new := VString (changedValue (config cmd)) in
  exists h1 h2 h3,
    ModifyCommand.execute this h = Normal tt h1
    /\ objects h1 = <[target := set_property obj key new]> (objects h)
    /\ commands h1
       = <[this := {| config := config cmd;
                      previousValue := get_property obj key |}]> (commands h)
    /\ ModifyCommand.execute this h1 = Normal tt h2
    /\ previousValue <$> commands h2 !! this = Some new
    /\ ModifyCommand.undo this h2 = Normal tt h3
    /\ field h3 target key = Some new
    /\ (get_property obj key <> new -> field h3 target key <> field h target key).
Proof.
  intros Hcmd Hobj target key new.
  pose proof (execute_heap h this cmd obj Hcmd Hobj) as E1.
  set (h1 := {| objects := <[target := set_property obj key new]> (objects h);
                commands := <[this := {| config := config cmd;
                                         previousValue := get_property obj key |}]>
                              (commands h) |}) in *.
  assert (Hcmd1 : commands h1 !! this
                  = Some {| config := config cmd;
                            previousValue := get_property obj key |})
    by apply lookup_insert_eq.
  assert (Hobj1 : objects h1 !! target = Some (set_property obj key new))
    by apply lookup_insert_eq.
  pose proof (execute_heap h1 this _ _ Hcmd1 Hobj1) as E2. cbn in E2.
  fold target key new in E2.
  rewrite get_set_property_eq, set_set_property in E2.
  match type of E2 with _ = Normal tt ?x => set (h2 := x) in * end.
  assert (Hcmd2 : commands h2 !! this
                  = Some {| config := config cmd; previousValue := new |})
    by apply lookup_insert_eq.
  assert (Hobj2 : objects h2 !! target = Some (set_property obj key new))
    by apply lookup_insert_eq.
  pose proof (undo_heap h2 this _ _ Hcmd2 Hobj2) as E3. cbn in E3.
  fold target key new in E3. rewrite set_set_property in E3.
  match type of E3 with _ = Normal tt ?x => set (h3 := x) in * end.
  assert (Hf3 : field h3 target key = Some new).
  { unfold field, h3. cbn. rewrite lookup_insert_eq. cbn.
    by rewrite get_set_property_eq. }
  exists h1, h2, h3. repeat split; try assumption.
  - rewrite Hcmd2. reflexivity.
  - intros Hne. rewrite Hf3. unfold field, target. rewrite Hobj. cbn.
    congruence.
Qed.

(** C7, as the code has it. [ModifyCommand.undo] has no guard: on a command
    that was never executed and whose receiver is an object it returns
    without an exception and writes the unset [previousValue], that is
    [undefined], into [target[mutationKey]]. *)
Theorem revert_before_apply (h : Heap) (this : cref) (cfg : ModifyCommandConfig)
    (obj : gmap string value) :
  commands h !! this = Some (new_ModifyCommand cfg) ->
  objects h !! receiver cfg = Some obj ->
  exists h',
    ModifyCommand.undo this h = Normal tt h'
    /\ objects h'
       = <[receiver cfg := set_property obj (modificationType cfg) VUndefined]>
           (objects h)
    /\ field h' (receiver cfg) (modificationType cfg) = Some VUndefined.
Proof.
  intros Hcmd Hobj. eexists. split; [|split].
  - apply (undo_heap h this _ obj Hcmd Hobj).
  - reflexivity.
  - unfold field. cbn. rewrite lookup_insert_eq. cbn.
    by rewrite get_set_property_eq.
Qed.

(** C7 as worded fails: in the scenario of the specification the target holds
    [value: "A"], the command [set_B] is as constructed, and its [undo]
    returns normally with [target.value] turned into [undefined]. *)
Lemma revert_guarded_fails :
  commands Scenario.start !! Scenario.set_B = Some (Scenario.set_value "B")
  /\ ~ revert_guarded Scenario.start Scenario.set_B.
Proof.
  split; [vm_compute; reflexivity|].
  intros Hg.
  destruct (Hg {| receiver := Scenario.target; changedValue := "B";
                  modificationType := "value" |})
    as [(h' & Hu & Hf)|(e & h' & Hu)].
  - vm_compute. reflexivity.
  - vm_compute in Hu. injection Hu as <-. vm_compute in Hf. discriminate.
  - vm_compute in Hu. discriminate.
Qed.

(** ** Calls that return *)

Section Returning.

Context {C : Type} `{Command C}.

Lemma log_on_execute_last (s : State C) (command : C) :
  index (log_on_execute s command)
        (Z.of_nat (length (log_on_execute s command)) - 1)
  = Some command.
Proof.
  unfold log_on_execute. rewrite length_push.
  match goal with
  | |- index (push ?l _) ?i = _ =>
      replace i with (Z.of_nat (length l)) by lia
  end.
  apply index_push_last.
Qed.

Lemma execute_returns (s : State C) (command : C) (h' : Heap) :
  cursor_inv s ->
  command_execute command (heap s) = Normal tt h' ->
  Invoker.execute command s =
  Normal tt
    {| heap := h';
       invoker :=
         {| executedCommands :=
              take (Z.to_nat (cursor s + 1)) (log s) ++ [command];
            currentExecutionState := cursor s + 1 |} |}.
Proof.
  intros Hinv Hx. rewrite execute_unfold, Hx.
  rewrite log_on_execute_length by exact Hinv.
  rewrite log_on_execute_prefix by exact Hinv.
  do 3 f_equal. lia.
Qed.

Lemma undo_returns (s : State C) (command : C) (h' : Heap) :
  index (log s) (cursor s) = Some command ->
  command_undo command (heap s) = Normal tt h' ->
  Invoker.undo s =
  Normal tt
    {| heap := h';
       invoker := {| executedCommands := log s;
                     currentExecutionState := cursor s - 1 |} |}.
Proof.
  intros Hi Hx. rewrite undo_unfold.
  pose proof (index_Some_range _ _ _ Hi) as Hr.
  destruct (Z.geb_spec (cursor s) 0) as [_|Hlt]; [|lia].
  rewrite Hi, Hx. reflexivity.
Qed.

Lemma redo_returns (s : State C) (command : C) (h' : Heap) :
  -1 <= cursor s ->
  index (log s) (cursor s + 1) = Some command ->
  command_execute command (heap s) = Normal tt h' ->
  Invoker.redo s =
  Normal tt
    {| heap := h';
       invoker := {| executedCommands := log s;
                     currentExecutionState := cursor s + 1 |} |}.
Proof.
  intros Hlo Hi Hx. rewrite redo_unfold.
  pose proof (index_Some_range _ _ _ Hi) as Hr.
  destruct (Z.ltb_spec (cursor s) (Z.of_nat (length (log s)) - 1)) as [_|Hge];
    [|lia].
  rewrite Hi, Hx. reflexivity.
Qed.

End Returning.

(** C3. Round trip: in every state, reachable or not, and for every
    [ModifyCommand] [o] whose receiver is an object, [execute(o)], [undo()]
    and [redo()] all return, and the state after the [redo], hence the
    mutated field of the target, is the state right after [execute(o)], in
    which the field holds the new value. *)
Theorem round_trip (s : State cref) (o : cref) (cmd : ModifyCommand)
    (obj : gmap string value) :
  commands (heap s) !! o = Some cmd ->
  objects (heap s) !! receiver (config cmd) = Some obj ->
  exists s1 s2 s3,
    Invoker.execute o s = Normal tt s1
    /\ Invoker.undo s1 = Normal tt s2
    /\ Invoker.redo s2 = Normal tt s3
    /\ s3 = s1
    /\ field (heap s3) (receiver (config cmd)) (modificationType (config cmd))
       = Some (VString (changedValue (config cmd))).
Proof.
  intros Hcmd Hobj.
  set (target := receiver (config cmd)).
  set (key := modificationType (config cmd)).
  set (new := VString (changedValue (config cmd))).
  set (old := get_property obj key).
  set (L := log_on_execute s o).
  assert (HL : 1 <= Z.of_nat (length L)).
  { unfold L, log_on_execute. rewrite length_push. lia. }
  pose proof (log_on_execute_last s o) as Hlast. fold L in Hlast.
  set (s1 := {| heap :=
                  {| objects := <[target := set_property obj key new]>
                                  (objects (heap s));
                     commands := <[o := {| config := config cmd;
                                           previousValue := old |}]>
                                   (commands (heap s)) |};
                invoker := {| executedCommands := L;
                              currentExecutionState := Z.of_nat (length L) - 1 |} |}).
  set (s2 := {| heap :=
                  {| objects := <[target := set_property obj key old]>
                                  (objects (heap s));
                     commands := commands (heap s1) |};
                invoker := {| executedCommands := L;
                              currentExecutionState := Z.of_nat (length L) - 2 |} |}).
  assert (E1 : Invoker.execute o s = Normal tt s1).
  { rewrite execute_unfold. cbn [command_execute ModifyCommand_Command].
    rewrite (execute_heap _ _ _ _ Hcmd Hobj). reflexivity. }
  assert (Hcmd1 : commands (heap s1) !! o
                  = Some {| config := config cmd; previousValue := old |})
    by apply lookup_insert_eq.
  assert (Hobj1 : objects (heap s1) !! target = Some (set_property obj key new))
    by apply lookup_insert_eq.
  assert (E2 : Invoker.undo s1 = Normal tt s2).
  { rewrite (undo_returns (H := ModifyCommand_Command) s1 o _ Hlast (undo_heap (heap s1) o _ _ Hcmd1 Hobj1)).
    unfold s2. cbn. fold target key new old.
    rewrite set_set_property, insert_insert_eq.
    do 3 f_equal. lia. }
  assert (Hobj2 : objects (heap s2) !! target = Some (set_property obj key old))
    by apply lookup_insert_eq.
  assert (Hlast2 : index (log s2) (cursor s2 + 1) = Some o).
  { unfold s2, log, cursor. cbn. rewrite <- Hlast. f_equal. lia. }
  assert (Hlo2 : -1 <= cursor s2) by (unfold s2, cursor; cbn; lia).
  assert (E3 : Invoker.redo s2 = Normal tt s1).
  { rewrite (redo_returns (H := ModifyCommand_Command) s2 o _ Hlo2 Hlast2
               (execute_heap (heap s2) o _ _ Hcmd1 Hobj2)).
    unfold s1. cbn. fold target key new old.
    rewrite set_set_property, get_set_property_eq, !insert_insert_eq.
    do 3 f_equal. lia. }
  exists s1, s2, s1. repeat split; try assumption.
  unfold field. fold target key new. rewrite Hobj1. cbn.
  by rewrite get_set_property_eq.
Qed.

(** ** Calls at a known position of the log

    The log split into the applied entries [pre] and the rest. *)

Section Positions.

Context {C : Type} `{Command C}.

Lemma execute_at (s : State C) (pre post : list C) (command : C) (h' : Heap) :
  log s = pre ++ post ->
  cursor s = Z.of_nat (length pre) - 1 ->
  command_execute command (heap s) = Normal tt h' ->
  Invoker.execute command s =
  Normal tt
    {| heap := h';
       invoker := {| executedCommands := pre ++ [command];
                     currentExecutionState := Z.of_nat (length pre) |} |}.
Proof.
  intros Hlog Hcur Hx.
  assert (Hinv : cursor_inv s).
  { unfold cursor_inv. rewrite Hlog, Hcur, length_app. lia. }
  rewrite (execute_returns s command h' Hinv Hx), Hlog, Hcur.
  replace (Z.of_nat (length pre) - 1 + 1) with (Z.of_nat (length pre)) by lia.
  rewrite Nat2Z.id, take_app_length. reflexivity.
Qed.

Lemma index_middle (pre post : list C) (command : C) :
  index (pre ++ command :: post) (Z.of_nat (length pre)) = Some command.
Proof.
  unfold index.
  destruct (Z.ltb_spec (Z.of_nat (length pre)) 0) as [Hneg|_]; [lia|].
  rewrite Nat2Z.id. apply list_lookup_middle. reflexivity.
Qed.

Lemma undo_at (s : State C) (pre post : list C) (command : C) (h' : Heap) :
  log s = pre ++ command :: post ->
  cursor s = Z.of_nat (length pre) ->
  command_undo command (heap s) = Normal tt h' ->
  Invoker.undo s =
  Normal tt
    {| heap := h';
       invoker := {| executedCommands := log s;
                     currentExecutionState := Z.of_nat (length pre) - 1 |} |}.
Proof.
  intros Hlog Hcur Hx.
  assert (Hi : index (log s) (cursor s) = Some command).
  { rewrite Hlog, Hcur. apply index_middle. }
  rewrite (undo_returns s command h' Hi Hx), Hcur. reflexivity.
Qed.

Lemma redo_at (s : State C) (pre post : list C) (command : C) (h' : Heap) :
  log s = pre ++ command :: post ->
  cursor s = Z.of_nat (length pre) - 1 ->
  command_execute command (heap s) = Normal tt h' ->
  Invoker.redo s =
  Normal tt
    {| heap := h';
       invoker := {| executedCommands := log s;
                     currentExecutionState := Z.of_nat (length pre) |} |}.
Proof.
  intros Hlog Hcur Hx.
  assert (Hi : index (log s) (cursor s + 1) = Some command).
  { rewrite Hlog, Hcur.
    replace (Z.of_nat (length pre) - 1 + 1) with (Z.of_nat (length pre)) by lia.
    apply index_middle. }
  assert (Hlo : -1 <= cursor s) by lia.
  rewrite (redo_returns s command h' Hlo Hi Hx), Hcur.
  do 3 f_equal. lia.
Qed.

Lemma run_app (cs1 cs2 : list (Call C)) (s : State C) :
  run (cs1 ++ cs2) s =
  match run cs1 s with
  | Normal _ s1 => run cs2 s1
  | Throw e s1 => Throw e s1
  end.
Proof.
  revert s. induction cs1 as [|c cs1 IH]; intros s; [reflexivity|].
  cbn. unfold bind. destruct (perform c s) as [[] s1|e s1]; [apply IH|reflexivity].
Qed.

End Positions.

(** ** The shape of the heap *)

Lemma same_shape_refl (h : Heap) : same_shape h h.
Proof. split; intros; reflexivity. Qed.

Lemma same_shape_trans (h1 h2 h3 : Heap) :
  same_shape h1 h2 -> same_shape h2 h3 -> same_shape h1 h3.
Proof.
  intros [Ho1 Hc1] [Ho2 Hc2]. split.
  - intros o. rewrite Ho2. apply Ho1.
  - intros c. rewrite Hc2. apply Hc1.
Qed.

Lemma same_shape_target_of (h h' : Heap) (c : cref) :
  same_shape h h' -> target_of h' c = target_of h c.
Proof.
  intros [_ Hc]. unfold target_of. specialize (Hc c).
  destruct (commands h' !! c) as [cmd'|], (commands h !! c) as [cmd|];
    cbn in *; congruence.
Qed.

Lemma same_shape_applicable (h h' : Heap) (c : cref) :
  same_shape h h' -> applicable h' c = applicable h c.
Proof.
  intros [Ho Hc]. unfold applicable. specialize (Hc c).
  destruct (commands h' !! c) as [cmd'|], (commands h !! c) as [cmd|];
    cbn in *; try congruence.
  injection Hc as ->. apply bool_decide_ext, Ho.
Qed.

Lemma same_shape_update (h : Heap) (c : cref) (cmd : ModifyCommand)
    (o : oref) (obj obj' : gmap string value) (v : value) :
  commands h !! c = Some cmd ->
  objects h !! o = Some obj ->
  same_shape h
    {| objects := <[o := obj']> (objects h);
       commands := <[c := {| config := config cmd; previousValue := v |}]>
                     (commands h) |}.
Proof.
  intros Hcmd Hobj. split; cbn.
  - intros o'. destruct (decide (o = o')) as [<-|Hne].
    + rewrite lookup_insert_eq, Hobj. split; eauto.
    + by rewrite lookup_insert_ne.
  - intros c'. destruct (decide (c = c')) as [<-|Hne].
    + by rewrite lookup_insert_eq, Hcmd.
    + by rewrite lookup_insert_ne.
Qed.

Lemma same_shape_write (h : Heap) (o : oref) (obj obj' : gmap string value) :
  objects h !! o = Some obj ->
  same_shape h {| objects := <[o := obj']> (objects h); commands := commands h |}.
Proof.
  intros Hobj. split; cbn; [|reflexivity].
  intros o'. destruct (decide (o = o')) as [<-|Hne].
  - rewrite lookup_insert_eq, Hobj. split; eauto.
  - by rewrite lookup_insert_ne.
Qed.

Lemma execute_applicable (h : Heap) (c : cref) :
  applicable h c = true ->
  exists h', ModifyCommand.execute c h = Normal tt h' /\ same_shape h h'.
Proof.
  intros Ha. destruct (applicable_inv h c Ha) as (cmd & obj & Hcmd & Hobj).
  eexists. split; [apply (execute_heap h c cmd obj Hcmd Hobj)|].
  apply (same_shape_update h c cmd _ obj _ _ Hcmd Hobj).
Qed.

Lemma undo_applicable (h : Heap) (c : cref) :
  applicable h c = true ->
  exists h', ModifyCommand.undo c h = Normal tt h' /\ same_shape h h'.
Proof.
  intros Ha. destruct (applicable_inv h c Ha) as (cmd & obj & Hcmd & Hobj).
  eexists. split; [apply (undo_heap h c cmd obj Hcmd Hobj)|].
  apply (same_shape_write h _ obj _ Hobj).
Qed.

Lemma reachable_run {C : Type} `{Command C} (cs : list (Call C)) (s : State C) :
  reachable s -> reachable (state_after (run cs s)).
Proof.
  revert s. induction cs as [|c cs IH]; intros s Hr; [exact Hr|].
  cbn. unfold bind.
  pose proof (reachable_call s c Hr) as Hr1.
  destruct (perform c s) as [[] s1|e s1]; cbn in Hr1; [apply IH, Hr1|exact Hr1].
Qed.

(** ** Branch discard *)

(** C1, as the code has it. From a reachable state and for three
    [ModifyCommand]s whose receivers are objects, the calls [execute(o1)],
    [execute(o2)], [undo()], [execute(o3)] return, a [redo()] after them
    returns and changes nothing (cursor, log and heap stay as they are), and
    the log is the applied part of the log of the starting state, its
    entries at the indices [0..cursor], followed by [o1] and [o3]: exactly
    [[o1; o3]] when the cursor was at [-1], as on a fresh [Invoker]. *)
Theorem branch_discard (s : State cref) (o1 o2 o3 : cref) :
  reachable s ->
  applicable (heap s) o1 = true ->
  applicable (heap s) o2 = true ->
  applicable (heap s) o3 = true ->
  exists s',
    run [CallExecute o1; CallExecute o2; CallUndo; CallExecute o3] s = Normal tt s'
    /\ Invoker.redo s' = Normal tt s'
    /\ log s' = take (Z.to_nat (cursor s + 1)) (log s) ++ [o1; o3]
    /\ (cursor s = -1 -> log s' = [o1; o3]).
Proof.
  intros Hr A1 A2 A3.
  destruct (reachable_cursor_inv s Hr) as [Hlo Hhi].
  set (pre := take (Z.to_nat (cursor s + 1)) (log s)).
  set (post := drop (Z.to_nat (cursor s + 1)) (log s)).
  assert (Hlog : log s = pre ++ post) by (symmetry; apply take_drop).
  assert (Hcur : cursor s = Z.of_nat (length pre) - 1).
  { unfold pre. rewrite length_take. lia. }
  (* execute(o1) *)
  destruct (execute_applicable _ _ A1) as (h1 & X1 & S1).
  pose proof (execute_at (H := ModifyCommand_Command) s pre post o1 h1 Hlog Hcur X1)
    as E1.
  match type of E1 with _ = Normal tt ?x => set (s1 := x) in * end.
  (* execute(o2) *)
  rewrite <- (same_shape_applicable _ _ o2 S1) in A2.
  rewrite <- (same_shape_applicable _ _ o3 S1) in A3.
  destruct (execute_applicable _ _ A2) as (h2 & X2 & S2).
  assert (E2 : Invoker.execute o2 s1
               = Normal tt {| heap := h2;
                              invoker := {| executedCommands := (pre ++ [o1]) ++ [o2];
                                            currentExecutionState :=
                                              Z.of_nat (length (pre ++ [o1])) |} |}).
  { apply (execute_at (H := ModifyCommand_Command) s1 (pre ++ [o1]) [] o2 h2).
    - unfold s1, log. cbn. by rewrite app_nil_r.
    - unfold s1, cursor. cbn. rewrite length_app. cbn. lia.
    - exact X2. }
  match type of E2 with _ = Normal tt ?x => set (s2 := x) in * end.
  (* undo() *)
  rewrite <- (same_shape_applicable _ _ o2 S2) in A2.
  rewrite <- (same_shape_applicable _ _ o3 S2) in A3.
  destruct (undo_applicable _ _ A2) as (h3 & X3 & S3).
  assert (E3 : Invoker.undo s2
               = Normal tt {| heap := h3;
                              invoker := {| executedCommands := (pre ++ [o1]) ++ [o2];
                                            currentExecutionState :=
                                              Z.of_nat (length (pre ++ [o1])) - 1 |} |}).
  { apply (undo_at (H := ModifyCommand_Command) s2 (pre ++ [o1]) [] o2 h3);
      [reflexivity | reflexivity | exact X3]. }
  match type of E3 with _ = Normal tt ?x => set (s3 := x) in * end.
  (* execute(o3) *)
  rewrite <- (same_shape_applicable _ _ o3 S3) in A3.
  destruct (execute_applicable _ _ A3) as (h4 & X4 & S4).
  pose proof (execute_at (H := ModifyCommand_Command) s3 (pre ++ [o1]) [o2] o3 h4
                eq_refl eq_refl X4) as E4.
  match type of E4 with _ = Normal tt ?x => set (s4 := x) in * end.
  assert (Hlog4 : log s4 = pre ++ [o1; o3]).
  { unfold s4, log. cbn. by rewrite <- app_assoc. }
  exists s4. split; [|split; [|split]].
  - cbn [run perform]. unfold bind. rewrite E1, E2, E3, E4. reflexivity.
  - apply redo_at_end. unfold s4, log, cursor. cbn.
    rewrite !length_app. cbn. lia.
  - exact Hlog4.
  - intros Hm. rewrite Hlog4. unfold pre. rewrite Hm. reflexivity.
Qed.

(** C1 as worded fails: the state after [execute(set_C)] on a fresh [Invoker]
    is reachable, and the four calls made there leave the log
    [[set_C; set_B; set_B]], not [[set_B; set_B]]. *)
Lemma branch_discard_exact_fails :
  reachable (Scenario.after [CallExecute Scenario.set_C])
  /\ applicable (heap (Scenario.after [CallExecute Scenario.set_C])) Scenario.set_B
     = true
  /\ applicable (heap (Scenario.after [CallExecute Scenario.set_C])) Scenario.set_C
     = true
  /\ ~ branch_discard_exact (Scenario.after [CallExecute Scenario.set_C])
         Scenario.set_B Scenario.set_C Scenario.set_B.
Proof.
  split; [apply reachable_run, reachable_fresh|].
  split; [vm_compute; reflexivity|]. split; [vm_compute; reflexivity|].
  intros (s' & Hrun & _ & Hlog).
  vm_compute in Hrun. injection Hrun as <-.
  vm_compute in Hlog. discriminate.
Qed.

(** ** Undoing everything *)

Lemma field_lookup (h : Heap) (o : oref) (obj : gmap string value) (key : string) :
  objects h !! o = Some obj -> field h o key = Some (get_property obj key).
Proof. intros Hobj. unfold field. by rewrite Hobj. Qed.

Lemma repeat_snoc {A : Type} (x : A) (n : nat) :
  repeat x (S n) = repeat x n ++ [x].
Proof. induction n as [|n IH]; [reflexivity|]. cbn in *. by rewrite <- IH. Qed.

(** Executing distinct commands from the end of the log and undoing as many
    times gives back every field, and touches no command outside [ops]. *)
Lemma execute_undo_all (ops : list cref) :
  forall s : State cref,
    cursor s = Z.of_nat (length (log s)) - 1 ->
    NoDup ops ->
    Forall (fun c => applicable (heap s) c = true) ops ->
    exists s',
      run (map CallExecute ops ++ repeat CallUndo (length ops)) s = Normal tt s'
      /\ log s' = log s ++ ops
      /\ cursor s' = cursor s
      /\ (forall o key, field (heap s') o key = field (heap s) o key)
      /\ (forall c, c ∉ ops -> commands (heap s') !! c = commands (heap s) !! c)
      /\ same_shape (heap s) (heap s').
Proof.
  induction ops as [|c rest IH]; intros s Hcur Hnd Hap.
  - exists s. cbn. rewrite app_nil_r.
    repeat split; auto using same_shape_refl.
  - apply NoDup_cons in Hnd as [Hnotin Hnd].
    apply Forall_cons in Hap as [Ha Hap].
    destruct (applicable_inv _ _ Ha) as (cmd & obj & Hcmd & Hobj).
    set (target := receiver (config cmd)) in *.
    set (key := modificationType (config cmd)) in *.
    set (new := VString (changedValue (config cmd))).
    set (old := get_property obj key).
    (* execute(c) *)
    pose proof (execute_heap _ _ _ _ Hcmd Hobj) as X1.
    fold target key new old in X1.
    match type of X1 with _ = Normal tt ?x => set (h1 := x) in * end.
    assert (S1 : same_shape (heap s) h1)
      by apply (same_shape_update _ _ _ _ _ _ _ Hcmd Hobj).
    pose proof (execute_at (H := ModifyCommand_Command) s (log s) [] c h1
                  (eq_sym (app_nil_r _)) Hcur X1) as E1.
    match type of E1 with _ = Normal tt ?x => set (s1 := x) in * end.
    (* the rest, by induction *)
    destruct (IH s1) as (s2 & R2 & L2 & C2 & F2 & K2 & S2).
    { unfold s1, cursor, log. cbn. rewrite length_app. cbn. lia. }
    { exact Hnd. }
    { eapply Forall_impl; [exact Hap|]. intros c' Hc'. cbn.
      by rewrite (same_shape_applicable _ _ c' S1). }
    (* undo() reaches c again *)
    assert (Hcmd2 : commands (heap s2) !! c
                    = Some {| config := config cmd; previousValue := old |}).
    { rewrite (K2 c Hnotin). apply lookup_insert_eq. }
    assert (Hobj1 : objects h1 !! target = Some (set_property obj key new))
      by apply lookup_insert_eq.
    destruct (proj2 (proj1 S2 target)) as [obj2 Hobj2]; [by eexists|].
    pose proof (undo_heap _ _ _ _ Hcmd2 Hobj2) as X3. cbn in X3.
    fold target key in X3.
    match type of X3 with _ = Normal tt ?x => set (h3 := x) in * end.
    assert (L2' : log s2 = log s ++ c :: rest).
    { rewrite L2. unfold s1, log. cbn. by rewrite <- app_assoc. }
    assert (C2' : cursor s2 = Z.of_nat (length (log s))).
    { rewrite C2. reflexivity. }
    pose proof (undo_at (H := ModifyCommand_Command) s2 (log s) rest c h3
                  L2' C2' X3) as E3.
    match type of E3 with _ = Normal tt ?x => set (s3 := x) in * end.
    exists s3. split; [|split; [|split; [|split; [|split]]]].
    + change (length (c :: rest)) with (S (length rest)).
      rewrite repeat_snoc. cbn [map app]. rewrite app_assoc.
      cbn [run perform]. unfold bind at 1. rewrite E1.
      rewrite run_app, R2. cbn [run perform]. unfold bind. rewrite E3.
      reflexivity.
    + exact L2'.
    + unfold s3, cursor at 1. cbn. lia.
    + intros o k. change (heap s3) with h3.
      destruct (decide (o = target)) as [->|Hne].
      * rewrite (field_lookup h3 target _ k (lookup_insert_eq _ _ _)).
        rewrite (field_lookup (heap s) target obj k Hobj).
        pose proof (F2 target k) as Hf. change (heap s1) with h1 in Hf.
        rewrite (field_lookup _ _ _ k Hobj2), (field_lookup _ _ _ k Hobj1) in Hf.
        injection Hf as Hf. f_equal.
        destruct (decide (key = k)) as [<-|Hk].
        -- apply get_set_property_eq.
        -- rewrite get_set_property_ne by exact Hk. rewrite Hf.
           apply get_set_property_ne, Hk.
      * transitivity (field (heap s2) o k).
        { unfold field, h3. cbn. by rewrite lookup_insert_ne. }
        rewrite F2. change (heap s1) with h1.
        unfold field, h1. cbn. by rewrite lookup_insert_ne.
    + intros c' Hc'. apply not_elem_of_cons in Hc' as [Hne Hc'].
      change (heap s3) with h3. unfold h3. cbn. rewrite (K2 c' Hc').
      change (heap s1) with h1. unfold h1. cbn.
      by rewrite lookup_insert_ne.
    + apply (same_shape_trans _ h1); [exact S1|].
      apply (same_shape_trans _ (heap s2)); [exact S2|].
      apply (same_shape_write _ _ _ _ Hobj2).
Qed.

(** C2, as the code has it. For pairwise distinct [ModifyCommand] objects
    [o1..on] whose receivers are objects, [n] [execute] calls on a fresh
    [Invoker] followed by [n] [undo] calls all return and leave every field
    of every target with the value it had before [o1] was executed. *)
Theorem undo_all_restores (h : Heap) (ops : list cref) :
  NoDup ops ->
  Forall (fun c => applicable h c = true) ops ->
  undos_restore h ops.
Proof.
  intros Hnd Hap.
  destruct (execute_undo_all ops (fresh h)) as (s' & R & _ & _ & F & _);
    [reflexivity | exact Hnd | exact Hap |].
  exists s'. split; [exact R | exact F].
Qed.

(** C2 as worded fails when one command object is executed twice: in the
    scenario [execute(set_B)], [execute(set_B)], [undo()], [undo()] leaves
    [target.value] at ["B"], not at ["A"]. *)
Lemma undos_restore_fails :
  Forall (fun c => applicable Scenario.start c = true)
         [Scenario.set_B; Scenario.set_B]
  /\ ~ undos_restore Scenario.start [Scenario.set_B; Scenario.set_B].
Proof.
  split; [repeat constructor|].
  intros (s' & Hrun & Hf).
  vm_compute in Hrun. injection Hrun as <-.
  specialize (Hf Scenario.target "value"%string).
  vm_compute in Hf. discriminate.
Qed.

(** ** The method calls behind the calls of the [Invoker] *)

Section Dispatch.

Context {C : Type} `{Command C}.

(** The heap after a call that returns is the heap after the method it
    dispatched to, or the heap as it was when it dispatched to none. *)
Lemma perform_dispatched (c : Call C) (s s1 : State C) :
  perform c s = Normal tt s1 ->
  match dispatched c s with
  | Some mc => invoke mc (heap s) = Normal tt (heap s1)
  | None => heap s1 = heap s
  end.
Proof.
  destruct c as [command| |]; cbn [perform dispatched invoke].
  - rewrite execute_unfold.
    destruct (command_execute command (heap s)) as [[] h1|e h1];
      [|discriminate].
    intros [= <-]. reflexivity.
  - rewrite undo_unfold. destruct (cursor s >=? 0).
    + destruct (index (log s) (cursor s)) as [command|]; [|discriminate]. cbn.
      destruct (command_undo command (heap s)) as [[] h1|e h1];
        [|discriminate].
      intros [= <-]. reflexivity.
    + intros [= <-]. reflexivity.
  - rewrite redo_unfold.
    destruct (cursor s <? Z.of_nat (length (log s)) - 1).
    + destruct (index (log s) (cursor s + 1)) as [command|]; [|discriminate].
      cbn.
      destruct (command_execute command (heap s)) as [[] h1|e h1];
        [|discriminate].
      intros [= <-]. reflexivity.
    + intros [= <-]. reflexivity.
Qed.

(** Replaying the trace of a call sequence that returns gives its heap. *)
Lemma run_replay (cs : list (Call C)) :
  forall s s' : State C,
    run cs s = Normal tt s' ->
    replay (trace cs s) (heap s) = Normal tt (heap s').
Proof.
  induction cs as [|c cs IH]; intros s s'.
  - cbn. intros [= <-]. reflexivity.
  - cbn [run trace]. unfold bind at 1.
    destruct (perform c s) as [[] s1|e s1] eqn:E; [|discriminate].
    intros Hrun. cbn [state_after].
    pose proof (perform_dispatched c s s1 E) as Hd.
    destruct (dispatched c s) as [mc|]; cbn [app replay].
    + unfold bind. rewrite Hd. apply IH, Hrun.
    + rewrite <- Hd. apply IH, Hrun.
Qed.

End Dispatch.

(** ** Calls that cannot fail *)

Lemma Forall_applicable_shape (h h' : Heap) (l : list cref) :
  same_shape h h' ->
  Forall (fun c => applicable h c = true) l ->
  Forall (fun c => applicable h' c = true) l.
Proof.
  intros Hs Hall. eapply Forall_impl; [exact Hall|]. intros c Hc. cbn.
  by rewrite (same_shape_applicable _ _ c Hs).
Qed.

Lemma index_Forall {A : Type} (P : A -> Prop) (l : list A) (i : Z) (x : A) :
  Forall P l -> index l i = Some x -> P x.
Proof.
  intros Hall. unfold index. destruct (i <? 0); [discriminate|].
  intros Hl. exact (Forall_lookup_1 P l _ x Hall Hl).
Qed.

Lemma perform_well_formed (s : State cref) (c : Call cref) :
  well_formed s ->
  call_applicable (heap s) c = true ->
  exists s',
    perform c s = Normal tt s' /\ well_formed s' /\ same_shape (heap s) (heap s').
Proof.
  intros [Hinv Hall] Hc. destruct c as [o| |]; cbn [perform call_applicable] in *.
  - destruct (execute_applicable _ _ Hc) as (h1 & X & S).
    pose proof (execute_returns (H := ModifyCommand_Command) s o h1 Hinv X) as E.
    eexists. split; [exact E|]. split; [split|exact S].
    + pose proof (cursor_inv_execute (H := ModifyCommand_Command) s o Hinv) as Hi.
      rewrite E in Hi. exact Hi.
    + unfold log. cbn. apply Forall_app. split.
      * apply Forall_take, (Forall_applicable_shape _ _ _ S Hall).
      * apply Forall_singleton. by rewrite (same_shape_applicable _ _ o S).
  - destruct (Z.ltb_spec (cursor s) 0) as [Hneg|Hpos].
    + exists s. split; [apply undo_at_start, Hneg|].
      split; [split; assumption | apply same_shape_refl].
    + destruct (index_in_range (log s) (cursor s)) as [o Ho];
        [destruct Hinv; lia|].
      pose proof (index_Forall _ _ _ _ Hall Ho) as Ha. cbn in Ha.
      destruct (undo_applicable _ _ Ha) as (h1 & X & S).
      pose proof (undo_returns (H := ModifyCommand_Command) s o h1 Ho X) as E.
      eexists. split; [exact E|]. split; [split|exact S].
      * pose proof (cursor_inv_undo (H := ModifyCommand_Command) s Hinv) as Hi.
        rewrite E in Hi. exact Hi.
      * apply (Forall_applicable_shape _ _ _ S Hall).
  - destruct (Z.ltb_spec (cursor s) (Z.of_nat (length (log s)) - 1)) as [Hlt|Hge].
    + destruct (index_in_range (log s) (cursor s + 1)) as [o Ho];
        [destruct Hinv; lia|].
      pose proof (index_Forall _ _ _ _ Hall Ho) as Ha. cbn in Ha.
      destruct (execute_applicable _ _ Ha) as (h1 & X & S).
      pose proof (redo_returns (H := ModifyCommand_Command) s o h1
                    (proj1 Hinv) Ho X) as E.
      eexists. split; [exact E|]. split; [split|exact S].
      * pose proof (cursor_inv_redo (H := ModifyCommand_Command) s Hinv) as Hi.
        rewrite E in Hi. exact Hi.
      * apply (Forall_applicable_shape _ _ _ S Hall).
    + exists s. split; [apply redo_at_end, Hge|].
      split; [split; assumption | apply same_shape_refl].
Qed.

Lemma run_well_formed (cs : list (Call cref)) :
  forall s : State cref,
    well_formed s ->
    Forall (fun c => call_applicable (heap s) c = true) cs ->
    exists s',
      run cs s = Normal tt s' /\ well_formed s' /\ same_shape (heap s) (heap s').
Proof.
  induction cs as [|c cs IH]; intros s Hwf Hcs.
  - exists s. cbn. auto using same_shape_refl.
  - apply Forall_cons in Hcs as [Hc Hcs].
    destruct (perform_well_formed s c Hwf Hc) as (s1 & E1 & Hwf1 & S1).
    destruct (IH s1 Hwf1) as (s' & E' & Hwf' & S').
    { eapply Forall_impl; [exact Hcs|]. intros [o| |] Ho; cbn in *; [|done..].
      by rewrite (same_shape_applicable _ _ o S1). }
    exists s'. split; [|split; [exact Hwf'|]].
    + cbn [run]. unfold bind. rewrite E1. exact E'.
    + apply (same_shape_trans _ _ _ S1 S').
Qed.

(** ** Independent targets *)

Lemma target_of_Some (h : Heap) (c : cref) (X : oref) :
  target_of h c = Some X ->
  exists cmd, commands h !! c = Some cmd /\ receiver (config cmd) = X.
Proof.
  unfold target_of. destruct (commands h !! c) as [cmd|]; [|discriminate].
  cbn. intros [= <-]. eauto.
Qed.

(** A method of a command on [X] neither reads nor writes another object [Y]:
    it commutes with any replacement of the contents of [Y]. *)
Lemma invoke_frame (X Y : oref) (m : Method) (c : cref) (h : Heap)
    (objY : gmap string value) :
  X <> Y ->
  target_of h c = Some X ->
  invoke (m, c) (with_object Y objY h)
  = map_state (with_object Y objY) (invoke (m, c) h).
Proof.
  intros Hne Ht. destruct (target_of_Some _ _ _ Ht) as (cmd & Hcmd & <-).
  assert (Hl : objects (with_object Y objY h) !! receiver (config cmd)
               = objects h !! receiver (config cmd)).
  { cbn. apply lookup_insert_ne. congruence. }
  destruct m; cbn [invoke command_execute command_undo ModifyCommand_Command].
  - unfold ModifyCommand.execute, bind, ModifyCommand.self. cbn [commands with_object].
    rewrite Hcmd. unfold ModifyCommand.read_receiver. rewrite Hl.
    destruct (objects h !! receiver (config cmd)) as [obj|] eqn:Hobj;
      [|reflexivity].
    unfold ModifyCommand.set_previousValue. cbn [commands with_object].
    rewrite Hcmd. unfold ModifyCommand.write_receiver. cbn.
    rewrite lookup_insert_ne by congruence. rewrite Hobj. cbn.
    unfold with_object. cbn. f_equal. f_equal.
    apply insert_insert_ne. congruence.
  - unfold ModifyCommand.undo, bind, ModifyCommand.self. cbn [commands with_object].
    rewrite Hcmd. unfold ModifyCommand.write_receiver. rewrite Hl.
    destruct (objects h !! receiver (config cmd)) as [obj|] eqn:Hobj;
      [|reflexivity].
    cbn. unfold with_object. cbn. f_equal. f_equal.
    apply insert_insert_ne. congruence.
Qed.

Lemma invoke_returns_applicable (mc : Method * cref) (h h1 : Heap) :
  invoke mc h = Normal tt h1 -> applicable h mc.2 = true.
Proof.
  destruct mc as [[] c]; cbn; intros E;
    destruct (applicable h c) eqn:Ha; try reflexivity.
  - rewrite (not_applicable_execute h c Ha) in E. discriminate.
  - rewrite (not_applicable_undo h c Ha) in E. discriminate.
Qed.

Lemma agree_on_refl (h : Heap) (Y : oref) : agree_on h Y h h.
Proof. repeat split; auto using same_shape_refl; apply same_shape_refl. Qed.

(** One method call on the full heap [h], followed on the heap [hy] that only
    sees the calls on [Y]. *)
Lemma invoke_project (h0 : Heap) (Y : oref) (mc : Method * cref) (h hy h1 : Heap) :
  agree_on h0 Y h hy ->
  invoke mc h = Normal tt h1 ->
  if on_target h0 Y mc
  then exists hy1, invoke mc hy = Normal tt hy1 /\ agree_on h0 Y h1 hy1
  else agree_on h0 Y h1 hy.
Proof.
  intros (Sh & Shy & HY & Hcs) E.
  pose proof (invoke_returns_applicable mc h h1 E) as Ha.
  destruct mc as [m c]. cbn [snd] in Ha.
  destruct (applicable_inv _ _ Ha) as (cmd & obj & Hcmd & Hobj).
  assert (Ht : target_of h0 c = Some (receiver (config cmd))).
  { rewrite <- (same_shape_target_of _ _ c Sh). unfold target_of.
    by rewrite Hcmd. }
  unfold on_target. cbn [snd]. rewrite Ht.
  destruct (bool_decide_reflect (Some (receiver (config cmd)) = Some Y))
    as [HisY|HnotY].
  - injection HisY as HisY.
    assert (Hcmdy : commands hy !! c = Some cmd).
    { rewrite <- (Hcs c); [exact Hcmd | by rewrite Ht, HisY]. }
    assert (Hobjy : objects hy !! receiver (config cmd) = Some obj).
    { rewrite HisY, <- HY, <- HisY. exact Hobj. }
    destruct m; cbn [invoke command_execute command_undo ModifyCommand_Command] in *.
    + rewrite (execute_heap _ _ _ _ Hcmd Hobj) in E. injection E as <-.
      eexists. split; [apply (execute_heap _ _ _ _ Hcmdy Hobjy)|].
      split; [|split; [|split]].
      * apply (same_shape_trans _ _ _ Sh),
          (same_shape_update _ _ _ _ _ _ _ Hcmd Hobj).
      * apply (same_shape_trans _ _ _ Shy),
          (same_shape_update _ _ _ _ _ _ _ Hcmdy Hobjy).
      * cbn. rewrite HisY. by rewrite !lookup_insert_eq.
      * intros c' Hc'. cbn. destruct (decide (c = c')) as [<-|Hcc].
        -- by rewrite !lookup_insert_eq.
        -- rewrite !lookup_insert_ne by exact Hcc. apply Hcs, Hc'.
    + rewrite (undo_heap _ _ _ _ Hcmd Hobj) in E. injection E as <-.
      eexists. split; [apply (undo_heap _ _ _ _ Hcmdy Hobjy)|].
      split; [|split; [|split]].
      * apply (same_shape_trans _ _ _ Sh), (same_shape_write _ _ _ _ Hobj).
      * apply (same_shape_trans _ _ _ Shy), (same_shape_write _ _ _ _ Hobjy).
      * cbn. rewrite HisY. by rewrite !lookup_insert_eq.
      * intros c' Hc'. cbn. apply Hcs, Hc'.
  - assert (HneY : receiver (config cmd) <> Y) by congruence.
    destruct m; cbn [invoke command_execute command_undo ModifyCommand_Command] in *.
    + rewrite (execute_heap _ _ _ _ Hcmd Hobj) in E. injection E as <-.
      split; [|split; [exact Shy|split]].
      * apply (same_shape_trans _ _ _ Sh),
          (same_shape_update _ _ _ _ _ _ _ Hcmd Hobj).
      * cbn. rewrite lookup_insert_ne by exact HneY. exact HY.
      * intros c' Hc'. cbn. rewrite lookup_insert_ne; [apply Hcs, Hc'|].
        intros <-. rewrite Ht in Hc'. congruence.
    + rewrite (undo_heap _ _ _ _ Hcmd Hobj) in E. injection E as <-.
      split; [|split; [exact Shy|split]].
      * apply (same_shape_trans _ _ _ Sh), (same_shape_write _ _ _ _ Hobj).
      * cbn. rewrite lookup_insert_ne by exact HneY. exact HY.
      * intros c' Hc'. cbn. apply Hcs, Hc'.
Qed.

(** A sequence of method calls that returns, and its calls on [Y] alone. *)
Lemma replay_project (h0 : Heap) (Y : oref) (t : list (Method * cref)) :
  forall h hy hf : Heap,
    agree_on h0 Y h hy ->
    replay t h = Normal tt hf ->
    exists hyf,
      replay (List.filter (on_target h0 Y) t) hy = Normal tt hyf
      /\ agree_on h0 Y hf hyf.
Proof.
  induction t as [|mc t IH]; intros h hy hf Hag.
  - cbn. intros [= <-]. eauto.
  - cbn [replay List.filter]. unfold bind at 1.
    destruct (invoke mc h) as [[] h1|e h1] eqn:E; [|discriminate].
    intros Hrest. pose proof (invoke_project h0 Y mc h hy h1 Hag E) as Hp.
    destruct (on_target h0 Y mc).
    + destruct Hp as (hy1 & Ey & Hag1).
      destruct (IH h1 hy1 hf Hag1 Hrest) as (hyf & Ef & Hagf).
      exists hyf. split; [|exact Hagf].
      cbn [replay]. unfold bind. rewrite Ey. exact Ef.
    + apply (IH h1 hy hf Hp Hrest).
Qed.

(** C9. Target independence. A method of a command built with target [X]
    neither reads nor writes a distinct object [Y]: replacing the contents of
    [Y] before the call or after it gives the same result. And for every
    sequence of [execute], [undo] and [redo] calls on a fresh [Invoker] whose
    operations are [ModifyCommand]s with receivers that are objects, the
    calls return, the heap they leave is the heap after the method calls
    they made (the trace), and object [Y] is left as it is by the calls of
    the trace on the commands with target [Y], made alone on the starting
    heap. *)
Theorem target_independence (h : Heap) (X Y : oref) (calls : list (Call cref)) :
  X <> Y ->
  Forall (fun c => call_applicable h c = true) calls ->
  (forall (m : Method) (c : cref) (h1 : Heap) (objY : gmap string value),
      target_of h1 c = Some X ->
      invoke (m, c) (with_object Y objY h1)
      = map_state (with_object Y objY) (invoke (m, c) h1))
  /\ exists s' hY,
       run calls (fresh h) = Normal tt s'
       /\ replay (trace calls (fresh h)) h = Normal tt (heap s')
       /\ replay (List.filter (on_target h Y) (trace calls (fresh h))) h
          = Normal tt hY
       /\ objects (heap s') !! Y = objects hY !! Y.
Proof.
  intros Hne Hcalls. split.
  - intros m c h1 objY Ht. apply (invoke_frame X Y m c h1 objY Hne Ht).
  - destruct (run_well_formed calls (fresh h)) as (s' & Hrun & _ & _).
    { split; [apply cursor_inv_fresh | constructor]. }
    { exact Hcalls. }
    pose proof (run_replay calls _ _ Hrun) as Hrep.
    destruct (replay_project h Y _ _ _ _ (agree_on_refl h Y) Hrep)
      as (hY & HrepY & (_ & _ & HY & _)).
    exists s', hY. auto.
Qed.

(** ** The theorems at work on the scenario *)

Lemma cursor_invariant_witness :
  reachable (Scenario.after [CallExecute Scenario.set_B; CallUndo])
  /\ cursor_inv (Scenario.after [CallExecute Scenario.set_B; CallUndo])
  /\ forall c : Call cref,
       cursor_inv
         (state_after
            (perform c (Scenario.after [CallExecute Scenario.set_B; CallUndo]))).
Proof.
  split; [apply reachable_run, reachable_fresh|].
  apply cursor_invariant, reachable_run, reachable_fresh.
Defined.

Lemma execute_steps_witness :
  reachable (Scenario.after [CallExecute Scenario.set_B; CallUndo])
  /\ Invoker.execute Scenario.set_C
       (Scenario.after [CallExecute Scenario.set_B; CallUndo])
     = HistoryManagerSpec.execute Scenario.set_C
         (Scenario.after [CallExecute Scenario.set_B; CallUndo])
  /\ Invoker.execute Scenario.set_C
       (Scenario.after [CallExecute Scenario.set_B; CallUndo])
     = match command_execute Scenario.set_C
               (heap (Scenario.after [CallExecute Scenario.set_B; CallUndo]))
       with
       | Normal _ h =>
           Normal tt
             {| heap := h;
                invoker :=
                  {| executedCommands :=
                       applied (Scenario.after [CallExecute Scenario.set_B; CallUndo])
                       ++ [Scenario.set_C];
                     currentExecutionState :=
                       Z.of_nat
                         (length
                            (applied
                               (Scenario.after [CallExecute Scenario.set_B; CallUndo])
                             ++ [Scenario.set_C])) - 1 |} |}
       | Throw e h =>
           Throw e
             {| heap := h;
                invoker :=
                  {| executedCommands :=
                       applied (Scenario.after [CallExecute Scenario.set_B; CallUndo])
                       ++ [Scenario.set_C];
                     currentExecutionState :=
                       cursor (Scenario.after [CallExecute Scenario.set_B; CallUndo])
                  |} |}
       end
  /\ returns (Invoker.execute Scenario.set_C
                (Scenario.after [CallExecute Scenario.set_B; CallUndo]))
     = returns (command_execute Scenario.set_C
                  (heap (Scenario.after [CallExecute Scenario.set_B; CallUndo]))).
Proof.
  split; [apply reachable_run, reachable_fresh|].
  apply execute_steps, reachable_run, reachable_fresh.
Defined.

Lemma boundary_noops_witness :
  (cursor (fresh (C := cref) Scenario.start) = -1
   /\ Invoker.undo (fresh (C := cref) Scenario.start)
      = Normal tt (fresh Scenario.start))
  /\ (cursor (Scenario.after [CallExecute Scenario.set_B])
      = Z.of_nat (length (log (Scenario.after [CallExecute Scenario.set_B]))) - 1
      /\ Invoker.redo (Scenario.after [CallExecute Scenario.set_B])
         = Normal tt (Scenario.after [CallExecute Scenario.set_B])).
Proof.
  split; split.
  - reflexivity.
  - apply (proj1 (boundary_noops (fresh Scenario.start))). reflexivity.
  - vm_compute. reflexivity.
  - apply (proj2 (boundary_noops (Scenario.after [CallExecute Scenario.set_B]))).
    vm_compute. reflexivity.
Defined.

Lemma repeated_apply_witness :
  commands Scenario.start !! Scenario.set_B = Some (Scenario.set_value "B")
  /\ objects Scenario.start !! Scenario.target
     = Some {[ "value"%string := VString "A" ]}
  /\ exists h1 h2 h3,
       ModifyCommand.execute Scenario.set_B Scenario.start = Normal tt h1
       /\ objects h1
          = <[Scenario.target :=
                set_property {[ "value"%string := VString "A" ]} "value"
                             (VString "B")]> (objects Scenario.start)
       /\ commands h1
          = <[Scenario.set_B :=
                {| config := config (Scenario.set_value "B");
                   previousValue := VString "A" |}]> (commands Scenario.start)
       /\ ModifyCommand.execute Scenario.set_B h1 = Normal tt h2
       /\ previousValue <$> commands h2 !! Scenario.set_B = Some (VString "B")
       /\ ModifyCommand.undo Scenario.set_B h2 = Normal tt h3
       /\ field h3 Scenario.target "value" = Some (VString "B")
       /\ (VString "A" <> VString "B" ->
           field h3 Scenario.target "value"
           <> field Scenario.start Scenario.target "value").
Proof.
  split; [vm_compute; reflexivity|]. split; [vm_compute; reflexivity|].
  assert (Hcmd : commands Scenario.start !! Scenario.set_B
                 = Some (Scenario.set_value "B")) by (vm_compute; reflexivity).
  assert (Hobj : objects Scenario.start
                   !! receiver (config (Scenario.set_value "B"))
                 = Some {[ "value"%string := VString "A" ]})
    by (vm_compute; reflexivity).
  exact (repeated_apply Scenario.start Scenario.set_B (Scenario.set_value "B")
           {[ "value"%string := VString "A" ]} Hcmd Hobj).
Defined.

Lemma revert_before_apply_witness :
  commands Scenario.start !! Scenario.set_B
  = Some (new_ModifyCommand
            {| receiver := Scenario.target; changedValue := "B";
               modificationType := "value" |})
  /\ objects Scenario.start !! Scenario.target
     = Some {[ "value"%string := VString "A" ]}
  /\ exists h',
       ModifyCommand.undo Scenario.set_B Scenario.start = Normal tt h'
       /\ objects h'
          = <[Scenario.target :=
                set_property {[ "value"%string := VString "A" ]} "value"
                             VUndefined]> (objects Scenario.start)
       /\ field h' Scenario.target "value" = Some VUndefined.
Proof.
  split; [vm_compute; reflexivity|]. split; [vm_compute; reflexivity|].
  apply (revert_before_apply Scenario.start Scenario.set_B
           {| receiver := Scenario.target; changedValue := "B";
              modificationType := "value" |}
           {[ "value"%string := VString "A" ]});
    vm_compute; reflexivity.
Defined.

Lemma round_trip_witness :
  commands (heap (Scenario.after [CallExecute Scenario.set_B])) !! Scenario.set_C
  = Some (Scenario.set_value "C")
  /\ objects (heap (Scenario.after [CallExecute Scenario.set_B])) !! Scenario.target
     = Some {[ "value"%string := VString "B" ]}
  /\ exists s1 s2 s3,
       Invoker.execute Scenario.set_C (Scenario.after [CallExecute Scenario.set_B])
       = Normal tt s1
       /\ Invoker.undo s1 = Normal tt s2
       /\ Invoker.redo s2 = Normal tt s3
       /\ s3 = s1
       /\ field (heap s3) Scenario.target "value" = Some (VString "C").
Proof.
  split; [vm_compute; reflexivity|]. split; [vm_compute; reflexivity|].
  apply (round_trip (Scenario.after [CallExecute Scenario.set_B]) Scenario.set_C
           (Scenario.set_value "C") {[ "value"%string := VString "B" ]});
    vm_compute; reflexivity.
Defined.

Lemma branch_discard_witness :
  reachable (Scenario.after [CallExecute Scenario.set_C])
  /\ applicable (heap (Scenario.after [CallExecute Scenario.set_C])) Scenario.set_B
     = true
  /\ applicable (heap (Scenario.after [CallExecute Scenario.set_C])) Scenario.set_C
     = true
  /\ exists s',
       run [CallExecute Scenario.set_B; CallExecute Scenario.set_C; CallUndo;
            CallExecute Scenario.set_B]
           (Scenario.after [CallExecute Scenario.set_C])
       = Normal tt s'
       /\ Invoker.redo s' = Normal tt s'
       /\ log s'
          = take (Z.to_nat (cursor (Scenario.after [CallExecute Scenario.set_C]) + 1))
                 (log (Scenario.after [CallExecute Scenario.set_C]))
            ++ [Scenario.set_B; Scenario.set_B]
       /\ (cursor (Scenario.after [CallExecute Scenario.set_C]) = -1 ->
           log s' = [Scenario.set_B; Scenario.set_B]).
Proof.
  split; [apply reachable_run, reachable_fresh|].
  split; [vm_compute; reflexivity|]. split; [vm_compute; reflexivity|].
  apply (branch_discard (Scenario.after [CallExecute Scenario.set_C])
           Scenario.set_B Scenario.set_C Scenario.set_B);
    [apply reachable_run, reachable_fresh | vm_compute; reflexivity..].
Defined.

Lemma undo_all_restores_witness :
  NoDup [Scenario.set_B; Scenario.set_C]
  /\ Forall (fun c => applicable Scenario.start c = true)
            [Scenario.set_B; Scenario.set_C]
  /\ undos_restore Scenario.start [Scenario.set_B; Scenario.set_C].
Proof.
  assert (Hnd : NoDup [Scenario.set_B; Scenario.set_C]).
  { apply NoDup_cons. split; [|apply NoDup_singleton].
    intros Hin. apply list_elem_of_singleton in Hin. discriminate. }
  assert (Hap : Forall (fun c => applicable Scenario.start c = true)
                       [Scenario.set_B; Scenario.set_C])
    by (repeat constructor).
  split; [exact Hnd|]. split; [exact Hap|].
  apply (undo_all_restores Scenario.start _ Hnd Hap).
Defined.

Lemma target_independence_witness :
  Scenario.target <> Scenario.other
  /\ Forall (fun c => call_applicable Scenario.two_targets c = true)
            Scenario.interleaved
  /\ (forall (m : Method) (c : cref) (h1 : Heap) (objY : gmap string value),
        target_of h1 c = Some Scenario.target ->
        invoke (m, c) (with_object Scenario.other objY h1)
        = map_state (with_object Scenario.other objY) (invoke (m, c) h1))
  /\ exists s' hY,
       run Scenario.interleaved (fresh Scenario.two_targets) = Normal tt s'
       /\ replay (trace Scenario.interleaved (fresh Scenario.two_targets))
                 Scenario.two_targets
          = Normal tt (heap s')
       /\ replay (List.filter (on_target Scenario.two_targets Scenario.other)
                    (trace Scenario.interleaved (fresh Scenario.two_targets)))
                 Scenario.two_targets
          = Normal tt hY
       /\ objects (heap s') !! Scenario.other = objects hY !! Scenario.other.
Proof.
  assert (Hne : Scenario.target <> Scenario.other) by discriminate.
  assert (Hap : Forall (fun c => call_applicable Scenario.two_targets c = true)
                       Scenario.interleaved)
    by (repeat constructor).
  split; [exact Hne|]. split; [exact Hap|].
  apply (target_independence Scenario.two_targets Scenario.target Scenario.other
           Scenario.interleaved Hne Hap).
Defined.

(** * Further properties of the history *)

(** ** The [Invoker] as an undo stack and a redo stack *)

Section TwoStacks.

Context {C : Type} `{Command C}.

Lemma log_applied_redoable (s : State C) : log s = applied s ++ redoable s.
Proof. symmetry. apply take_drop. Qed.

Lemma length_applied (s : State C) :
  cursor_inv s -> Z.of_nat (length (applied s)) = cursor s + 1.
Proof. intros [Hlo Hhi]. unfold applied. rewrite length_take. lia. Qed.

Lemma applied_split (s : State C) (P Q : list C) :
  log s = P ++ Q -> cursor s = Z.of_nat (length P) - 1 ->
  applied s = P /\ redoable s = Q.
Proof.
  intros Hlog Hcur. unfold applied, redoable. rewrite Hlog, Hcur.
  replace (Z.to_nat (Z.of_nat (length P) - 1 + 1)) with (length P) by lia.
  by rewrite take_app_length, drop_app_length.
Qed.

Lemma execute_stacks (s : State C) (command : C) :
  cursor_inv s ->
  if returns (Invoker.execute command s)
  then applied (state_after (Invoker.execute command s)) = applied s ++ [command]
       /\ redoable (state_after (Invoker.execute command s)) = []
  else applied (state_after (Invoker.execute command s)) = applied s
       /\ redoable (state_after (Invoker.execute command s)) = [command].
Proof.
  intros Hinv. pose proof (length_applied s Hinv) as Hlen.
  rewrite execute_unfold, (log_on_execute_prefix s command Hinv).
  fold (applied s).
  destruct (command_execute command (heap s)) as [[] h|e h]; cbn [returns state_after].
  - apply (applied_split _ (applied s ++ [command]) []).
    + unfold log. cbn. by rewrite app_nil_r.
    + unfold cursor. cbn. rewrite length_app. cbn. lia.
  - apply (applied_split _ (applied s) [command]).
    + reflexivity.
    + unfold cursor at 1. cbn. fold (cursor s). lia.
Qed.

Lemma undo_stacks (s : State C) (P : list C) (command : C) :
  cursor_inv s ->
  applied s = P ++ [command] ->
  dispatched CallUndo s = Some (MUndo, command)
  /\ applied (state_after (Invoker.undo s)) = P
  /\ redoable (state_after (Invoker.undo s)) = command :: redoable s
  /\ heap (state_after (Invoker.undo s))
     = state_after (command_undo command (heap s)).
Proof.
  intros Hinv HP. pose proof (length_applied s Hinv) as Hlen.
  rewrite HP, length_app in Hlen. cbn in Hlen.
  assert (Hlog : log s = P ++ command :: redoable s).
  { rewrite (log_applied_redoable s), HP, <- app_assoc. reflexivity. }
  assert (Hcur : cursor s = Z.of_nat (length P)) by lia.
  assert (Hi : index (log s) (cursor s) = Some command).
  { rewrite Hlog, Hcur. apply index_middle. }
  cbn [dispatched]. rewrite undo_unfold, Hi.
  destruct (Z.geb_spec (cursor s) 0) as [_|Hneg]; [|lia].
  split; [reflexivity|].
  assert (Hsplit : forall h' : Heap,
            applied {| heap := h';
                       invoker := {| executedCommands := log s;
                                     currentExecutionState := cursor s - 1 |} |} = P
            /\ redoable {| heap := h';
                          invoker := {| executedCommands := log s;
                                        currentExecutionState := cursor s - 1 |} |}
               = command :: redoable s).
  { intros h'. apply (applied_split _ P (command :: redoable s)).
    - exact Hlog.
    - unfold cursor at 1. cbn. fold (cursor s). lia. }
  destruct (command_undo command (heap s)) as [[] h'|e h']; cbn [state_after];
    destruct (Hsplit h') as [Ha Hr]; auto.
Qed.

Lemma redo_stacks (s : State C) (command : C) (R : list C) :
  cursor_inv s ->
  redoable s = command :: R ->
  dispatched CallRedo s = Some (MExecute, command)
  /\ applied (state_after (Invoker.redo s)) = applied s ++ [command]
  /\ redoable (state_after (Invoker.redo s)) = R
  /\ heap (state_after (Invoker.redo s))
     = state_after (command_execute command (heap s)).
Proof.
  intros Hinv HR. pose proof (length_applied s Hinv) as Hlen.
  assert (Hlog : log s = applied s ++ command :: R).
  { rewrite (log_applied_redoable s) at 1. by rewrite HR. }
  assert (Hi : index (log s) (cursor s + 1) = Some command).
  { rewrite Hlog at 1. rewrite <- Hlen. apply index_middle. }
  pose proof (index_Some_range _ _ _ Hi) as Hrange.
  cbn [dispatched]. rewrite redo_unfold, Hi.
  destruct (Z.ltb_spec (cursor s) (Z.of_nat (length (log s)) - 1)) as [_|Hge];
    [|lia].
  split; [reflexivity|].
  assert (Hsplit : forall h' : Heap,
            applied {| heap := h';
                       invoker := {| executedCommands := log s;
                                     currentExecutionState := cursor s + 1 |} |}
            = applied s ++ [command]
            /\ redoable {| heap := h';
                          invoker := {| executedCommands := log s;
                                        currentExecutionState := cursor s + 1 |} |}
               = R).
  { intros h'. apply (applied_split _ (applied s ++ [command]) R).
    - unfold log at 1. cbn. fold (log s). rewrite Hlog at 1.
      by rewrite <- app_assoc.
    - unfold cursor at 1. cbn. fold (cursor s). rewrite length_app. cbn. lia. }
  destruct (command_execute command (heap s)) as [[] h'|e h']; cbn [state_after];
    destruct (Hsplit h') as [Ha Hr]; auto.
Qed.

Lemma applied_nil_cursor (s : State C) :
  cursor_inv s -> applied s = [] -> cursor s = -1.
Proof.
  intros Hinv Ha. pose proof (length_applied s Hinv) as Hlen.
  rewrite Ha in Hlen. cbn in Hlen. lia.
Qed.

Lemma redoable_nil_cursor (s : State C) :
  cursor_inv s -> redoable s = [] -> cursor s = Z.of_nat (length (log s)) - 1.
Proof.
  intros Hinv Hr. pose proof (length_applied s Hinv) as Hlen.
  rewrite (log_applied_redoable s), Hr, app_nil_r. lia.
Qed.

Lemma undo_outcome (s : State C) (P : list C) (command : C) :
  cursor_inv s ->
  applied s = P ++ [command] ->
  Invoker.undo s =
  match command_undo command (heap s) with
  | Normal _ h =>
      Normal tt
        {| heap := h;
           invoker := {| executedCommands := log s;
                         currentExecutionState := cursor s - 1 |} |}
  | Throw e h =>
      Throw e
        {| heap := h;
           invoker := {| executedCommands := log s;
                         currentExecutionState := cursor s - 1 |} |}
  end.
Proof.
  intros Hinv HP. pose proof (length_applied s Hinv) as Hlen.
  rewrite HP, length_app in Hlen. cbn in Hlen.
  assert (Hi : index (log s) (cursor s) = Some command).
  { rewrite (log_applied_redoable s), HP, <- app_assoc.
    replace (cursor s) with (Z.of_nat (length P)) by lia. apply index_middle. }
  rewrite undo_unfold, Hi.
  destruct (Z.geb_spec (cursor s) 0) as [_|Hneg]; [reflexivity|lia].
Qed.

Lemma redo_outcome (s : State C) (command : C) (R : list C) :
  cursor_inv s ->
  redoable s = command :: R ->
  Invoker.redo s =
  match command_execute command (heap s) with
  | Normal _ h =>
      Normal tt
        {| heap := h;
           invoker := {| executedCommands := log s;
                         currentExecutionState := cursor s + 1 |} |}
  | Throw e h =>
      Throw e
        {| heap := h;
           invoker := {| executedCommands := log s;
                         currentExecutionState := cursor s + 1 |} |}
  end.
Proof.
  intros Hinv HR. pose proof (length_applied s Hinv) as Hlen.
  assert (Hi : index (log s) (cursor s + 1) = Some command).
  { rewrite (log_applied_redoable s), HR, <- Hlen. apply index_middle. }
  pose proof (index_Some_range _ _ _ Hi) as Hrange.
  rewrite redo_unfold, Hi.
  destruct (Z.ltb_spec (cursor s) (Z.of_nat (length (log s)) - 1)) as [_|Hge];
    [reflexivity|lia].
Qed.

(** X1. In a reachable state the array and the cursor work as an undo stack
    ([applied]) and a redo stack ([redoable]). [execute(c)] runs [c.execute()]
    on the heap; when that returns, [c] is pushed on the applied entries and
    the redo entries are emptied; when it throws, the applied entries stay
    and [c] is left as the only redo entry. [undo] runs the [undo] of the
    last applied entry on the heap and moves the entry to the front of the
    redo entries; [redo] runs the [execute] of the first redo entry and moves
    it to the end of the applied entries; both move the entry also when the
    method throws, and do nothing on an empty stack. In each case the heap
    and the completion of the call are those of the command's method. *)
Theorem invoker_two_stacks (s : State C) :
  reachable s ->
  log s = applied s ++ redoable s
  /\ (forall command,
        Invoker.execute command s
        = match command_execute command (heap s) with
          | Normal _ h =>
              Normal tt
                {| heap := h;
                   invoker :=
                     {| executedCommands := applied s ++ [command];
                        currentExecutionState :=
                          Z.of_nat (length (applied s ++ [command])) - 1 |} |}
          | Throw e h =>
              Throw e
                {| heap := h;
                   invoker := {| executedCommands := applied s ++ [command];
                                 currentExecutionState := cursor s |} |}
          end
        /\ if returns (command_execute command (heap s))
           then applied (state_after (Invoker.execute command s))
                = applied s ++ [command]
                /\ redoable (state_after (Invoker.execute command s)) = []
           else applied (state_after (Invoker.execute command s)) = applied s
                /\ redoable (state_after (Invoker.execute command s)) = [command])
  /\ (applied s = [] -> Invoker.undo s = Normal tt s)
  /\ (forall P command, applied s = P ++ [command] ->
        Invoker.undo s
        = match command_undo command (heap s) with
          | Normal _ h =>
              Normal tt
                {| heap := h;
                   invoker := {| executedCommands := log s;
                                 currentExecutionState := cursor s - 1 |} |}
          | Throw e h =>
              Throw e
                {| heap := h;
                   invoker := {| executedCommands := log s;
                                 currentExecutionState := cursor s - 1 |} |}
          end
        /\ applied (state_after (Invoker.undo s)) = P
        /\ redoable (state_after (Invoker.undo s)) = command :: redoable s)
  /\ (redoable s = [] -> Invoker.redo s = Normal tt s)
  /\ (forall command R, redoable s = command :: R ->
        Invoker.redo s
        = match command_execute command (heap s) with
          | Normal _ h =>
              Normal tt
                {| heap := h;
                   invoker := {| executedCommands := log s;
                                 currentExecutionState := cursor s + 1 |} |}
          | Throw e h =>
              Throw e
                {| heap := h;
                   invoker := {| executedCommands := log s;
                                 currentExecutionState := cursor s + 1 |} |}
          end
        /\ applied (state_after (Invoker.redo s)) = applied s ++ [command]
        /\ redoable (state_after (Invoker.redo s)) = R).
Proof.
  intros Hr. pose proof (reachable_cursor_inv s Hr) as Hinv.
  split; [apply log_applied_redoable|].
  split.
  { intros command. split; [apply (execute_outcome s command Hinv)|].
    pose proof (execute_stacks s command Hinv) as Hst.
    rewrite execute_unfold in Hst |- *.
    destruct (command_execute command (heap s)) as [[] h|e h]; exact Hst. }
  split.
  { intros Ha. apply undo_at_start. rewrite (applied_nil_cursor s Hinv Ha). lia. }
  split.
  { intros P command HP. split; [apply (undo_outcome s P command Hinv HP)|].
    destruct (undo_stacks s P command Hinv HP) as (_ & Ha & Hre & _). auto. }
  split.
  { intros Hre. apply redo_at_end. rewrite (redoable_nil_cursor s Hinv Hre). lia. }
  intros command R HR. split; [apply (redo_outcome s command R Hinv HR)|].
  destruct (redo_stacks s command R Hinv HR) as (_ & Ha & Hre & _). auto.
Qed.

End TwoStacks.

(** ** What no call sequence changes *)

Section HeapInvariants.

Context {C : Type} `{Command C}.

(** The heap after a call is the heap after one method of one command, or
    the heap as it was. *)
Lemma perform_heap (c : Call C) (s : State C) :
  heap (state_after (perform c s)) = heap s
  \/ exists mc, heap (state_after (perform c s)) = state_after (invoke mc (heap s)).
Proof.
  destruct c as [command| |]; cbn [perform].
  - right. exists (MExecute, command). rewrite execute_unfold. cbn [invoke].
    destruct (command_execute command (heap s)) as [[] h|e h]; reflexivity.
  - rewrite undo_unfold. destruct (cursor s >=? 0); [|by left].
    destruct (index (log s) (cursor s)) as [command|]; [|by left].
    right. exists (MUndo, command). cbn [invoke].
    destruct (command_undo command (heap s)) as [[] h|e h]; reflexivity.
  - rewrite redo_unfold.
    destruct (cursor s <? Z.of_nat (length (log s)) - 1); [|by left].
    destruct (index (log s) (cursor s + 1)) as [command|]; [|by left].
    right. exists (MExecute, command). cbn [invoke].
    destruct (command_execute command (heap s)) as [[] h|e h]; reflexivity.
Qed.

(** A property of the heap that every method of every command keeps, whether
    it returns or throws, holds after every call sequence. *)
Lemma run_heap_invariant (P : Heap -> Prop) :
  (forall mc h, P h -> P (state_after (invoke mc h))) ->
  forall (cs : list (Call C)) (s : State C),
    P (heap s) -> P (heap (state_after (run cs s))).
Proof.
  intros Hstep. induction cs as [|c cs IH]; intros s HP; [exact HP|].
  cbn [run]. unfold bind.
  assert (HP1 : P (heap (state_after (perform c s)))).
  { destruct (perform_heap c s) as [->|[mc ->]]; [exact HP|apply Hstep, HP]. }
  destruct (perform c s) as [[] s1|e s1]; cbn [state_after] in *;
    [apply IH, HP1 | exact HP1].
Qed.

End HeapInvariants.

(** The field a command is configured for. *)
Lemma invoke_cases (mc : Method * cref) (h : Heap) :
  state_after (invoke mc h) = h
  \/ exists cmd obj v,
       commands h !! mc.2 = Some cmd
       /\ objects h !! receiver (config cmd) = Some obj
       /\ (v = VString (changedValue (config cmd)) \/ v = previousValue cmd)
       /\ objects (state_after (invoke mc h))
          = <[receiver (config cmd) :=
                set_property obj (modificationType (config cmd)) v]> (objects h)
       /\ forall c, c <> mc.2 ->
            commands (state_after (invoke mc h)) !! c = commands h !! c.
Proof.
  destruct mc as [m c]. cbn [snd].
  destruct (applicable h c) eqn:Ha.
  - right. destruct (applicable_inv _ _ Ha) as (cmd & obj & Hcmd & Hobj).
    destruct m; cbn [invoke command_execute command_undo ModifyCommand_Command].
    + rewrite (execute_heap _ _ _ _ Hcmd Hobj). cbn.
      exists cmd, obj, (VString (changedValue (config cmd))).
      repeat split; auto. intros c' Hne. by rewrite lookup_insert_ne.
    + rewrite (undo_heap _ _ _ _ Hcmd Hobj). cbn.
      exists cmd, obj, (previousValue cmd). repeat split; auto.
  - left. destruct m; cbn [invoke command_execute command_undo ModifyCommand_Command].
    + by rewrite (not_applicable_execute _ _ Ha).
    + by rewrite (not_applicable_undo _ _ Ha).
Qed.

Lemma invoke_same_shape (mc : Method * cref) (h : Heap) :
  same_shape h (state_after (invoke mc h)).
Proof.
  destruct mc as [m c]. destruct (applicable h c) eqn:Ha.
  - destruct m; cbn [invoke command_execute command_undo ModifyCommand_Command].
    + destruct (execute_applicable _ _ Ha) as (h' & -> & S). exact S.
    + destruct (undo_applicable _ _ Ha) as (h' & -> & S). exact S.
  - destruct m; cbn [invoke command_execute command_undo ModifyCommand_Command].
    + rewrite (not_applicable_execute _ _ Ha). apply same_shape_refl.
    + rewrite (not_applicable_undo _ _ Ha). apply same_shape_refl.
Qed.

(** X4. No sequence of [execute], [undo] and [redo] calls, returning or
    stopped by an exception, creates or removes an object or a command, or
    changes the config (receiver, new value, key) of a command: the heap
    keeps its shape. *)
Theorem run_same_shape (cs : list (Call cref)) (s : State cref) :
  same_shape (heap s) (heap (state_after (run cs s))).
Proof.
  apply (run_heap_invariant (same_shape (heap s))).
  - intros mc h Hs. apply (same_shape_trans _ _ _ Hs), invoke_same_shape.
  - apply same_shape_refl.
Qed.

(** X3. A field [o[key]] that no command of the heap is configured for (no
    command has receiver [o] and key [key]) keeps its value through every
    sequence of calls. *)
Theorem untargeted_field_unchanged (cs : list (Call cref)) (s : State cref)
    (o : oref) (key : string) :
  (forall c cmd, commands (heap s) !! c = Some cmd ->
     receiver (config cmd) = o -> modificationType (config cmd) <> key) ->
  field (heap (state_after (run cs s))) o key = field (heap s) o key.
Proof.
  intros Hfree.
  apply (run_heap_invariant
           (fun h => same_shape (heap s) h /\ field h o key = field (heap s) o key)).
  - intros mc h [Hs Hf]. split.
    + apply (same_shape_trans _ _ _ Hs), invoke_same_shape.
    + destruct (invoke_cases mc h) as [->|(cmd & obj & v & Hcmd & Hobj & _ & Ho & _)];
        [exact Hf|].
      rewrite <- Hf. unfold field. rewrite Ho.
      destruct (decide (receiver (config cmd) = o)) as [Heq|Hne].
      * rewrite Heq, lookup_insert_eq. rewrite Heq in Hobj. rewrite Hobj. cbn.
        f_equal. apply get_set_property_ne.
        destruct Hs as [_ Hc]. specialize (Hc mc.2). rewrite Hcmd in Hc.
        destruct (commands (heap s) !! mc.2) as [cmd0|] eqn:Hcmd0; [|discriminate].
        cbn in Hc. injection Hc as Hc. rewrite Hc.
        apply (Hfree mc.2 cmd0 Hcmd0). by rewrite <- Hc.
      * by rewrite lookup_insert_ne.
  - split; [apply same_shape_refl | reflexivity].
Qed.

(** ** The methods of [ModifyCommand], field by field *)

Lemma field_update (h : Heap) (t : oref) (obj : gmap string value) (key : string)
    (v : value) (cm : gmap cref ModifyCommand) (o : oref) (k : string) :
  objects h !! t = Some obj ->
  field {| objects := <[t := set_property obj key v]> (objects h);
           commands := cm |} o k
  = if decide (o = t /\ k = key) then Some v else field h o k.
Proof.
  intros Hobj. unfold field. cbn.
  destruct (decide (o = t)) as [->|Hne].
  - rewrite lookup_insert_eq, Hobj. cbn.
    destruct (decide (k = key)) as [->|Hk].
    + rewrite decide_True by done. by rewrite get_set_property_eq.
    + rewrite decide_False by (intros [_ ?]; done).
      by rewrite get_set_property_ne.
  - rewrite lookup_insert_ne by done.
    rewrite decide_False by (intros [? _]; done). reflexivity.
Qed.

Lemma execute_fields (h : Heap) (c : cref) (cmd : ModifyCommand) :
  commands h !! c = Some cmd ->
  applicable h c = true ->
  exists h1 v,
    ModifyCommand.execute c h = Normal tt h1
    /\ field h (receiver (config cmd)) (modificationType (config cmd)) = Some v
    /\ commands h1
       = <[c := {| config := config cmd; previousValue := v |}]> (commands h)
    /\ same_shape h h1
    /\ forall o k,
         field h1 o k
         = if decide (o = receiver (config cmd)
                      /\ k = modificationType (config cmd))
           then Some (VString (changedValue (config cmd)))
           else field h o k.
Proof.
  intros Hcmd Ha. destruct (applicable_inv _ _ Ha) as (cmd' & obj & Hcmd' & Hobj).
  rewrite Hcmd in Hcmd'. injection Hcmd' as <-.
  eexists _, _. split; [apply (execute_heap _ _ _ _ Hcmd Hobj)|].
  split; [apply (field_lookup _ _ _ _ Hobj)|]. split; [reflexivity|].
  split; [apply (same_shape_update _ _ _ _ _ _ _ Hcmd Hobj)|].
  intros o k. apply field_update, Hobj.
Qed.

Lemma undo_fields (h : Heap) (c : cref) (cmd : ModifyCommand) :
  commands h !! c = Some cmd ->
  applicable h c = true ->
  exists h1,
    ModifyCommand.undo c h = Normal tt h1
    /\ commands h1 = commands h
    /\ same_shape h h1
    /\ forall o k,
         field h1 o k
         = if decide (o = receiver (config cmd)
                      /\ k = modificationType (config cmd))
           then Some (previousValue cmd)
           else field h o k.
Proof.
  intros Hcmd Ha. destruct (applicable_inv _ _ Ha) as (cmd' & obj & Hcmd' & Hobj).
  rewrite Hcmd in Hcmd'. injection Hcmd' as <-.
  eexists. split; [apply (undo_heap _ _ _ _ Hcmd Hobj)|].
  split; [reflexivity|].
  split; [apply (same_shape_write _ _ _ _ Hobj)|].
  intros o k. apply field_update, Hobj.
Qed.

Lemma same_shape_config (h h' : Heap) (c : cref) (cmd cmd' : ModifyCommand) :
  same_shape h h' ->
  commands h !! c = Some cmd -> commands h' !! c = Some cmd' ->
  config cmd' = config cmd.
Proof.
  intros [_ Hc] Hcmd Hcmd'. specialize (Hc c). rewrite Hcmd, Hcmd' in Hc.
  cbn in Hc. congruence.
Qed.

Lemma same_shape_command (h h' : Heap) (c : cref) (cmd : ModifyCommand) :
  same_shape h h' ->
  commands h !! c = Some cmd ->
  exists cmd', commands h' !! c = Some cmd' /\ config cmd' = config cmd.
Proof.
  intros [_ Hc] Hcmd. specialize (Hc c). rewrite Hcmd in Hc.
  destruct (commands h' !! c) as [cmd'|]; [|discriminate].
  cbn in Hc. exists cmd'. split; [reflexivity|congruence].
Qed.

(** ** A command executed on top of itself *)

(** The heap in which command [c] holds its own new value as
    [previousValue] and its field holds that value too. *)
Lemma stuck_invoke (h0 : Heap) (c : cref) (cmd : ModifyCommand)
    (mc : Method * cref) (h : Heap) :
  commands h0 !! c = Some cmd ->
  (forall c' cmd', commands h0 !! c' = Some cmd' ->
     receiver (config cmd') = receiver (config cmd) ->
     modificationType (config cmd') = modificationType (config cmd) -> c' = c) ->
  same_shape h0 h
  /\ commands h !! c
     = Some {| config := config cmd;
               previousValue := VString (changedValue (config cmd)) |}
  /\ field h (receiver (config cmd)) (modificationType (config cmd))
     = Some (VString (changedValue (config cmd))) ->
  same_shape h0 (state_after (invoke mc h))
  /\ commands (state_after (invoke mc h)) !! c
     = Some {| config := config cmd;
               previousValue := VString (changedValue (config cmd)) |}
  /\ field (state_after (invoke mc h)) (receiver (config cmd))
       (modificationType (config cmd))
     = Some (VString (changedValue (config cmd))).
Proof.
  intros Hcmd0 Huniq (Hs & Hc & Hf).
  destruct mc as [m c1]. destruct (applicable h c1) eqn:Ha.
  2:{ destruct m; cbn [invoke command_execute command_undo ModifyCommand_Command];
        [rewrite (not_applicable_execute _ _ Ha)
        |rewrite (not_applicable_undo _ _ Ha)]; cbn; auto. }
  destruct (applicable_inv _ _ Ha) as (cmd1 & obj1 & Hcmd1 & _).
  destruct (decide (c1 = c)) as [->|Hne].
  - rewrite Hc in Hcmd1. injection Hcmd1 as <-.
    destruct m; cbn [invoke command_execute command_undo ModifyCommand_Command].
    + destruct (execute_fields _ _ _ Hc Ha) as (h1 & v & -> & Hv & Hcs & S1 & Hf1).
      cbn [state_after config] in *. rewrite Hf in Hv. injection Hv as <-.
      split; [apply (same_shape_trans _ _ _ Hs S1)|]. split.
      * rewrite Hcs. apply lookup_insert_eq.
      * rewrite Hf1. by rewrite decide_True.
    + destruct (undo_fields _ _ _ Hc Ha) as (h1 & -> & Hcs & S1 & Hf1).
      cbn [state_after config previousValue] in *.
      split; [apply (same_shape_trans _ _ _ Hs S1)|]. split.
      * by rewrite Hcs.
      * rewrite Hf1. by rewrite decide_True.
  - assert (Hother : ~ (receiver (config cmd) = receiver (config cmd1)
                        /\ modificationType (config cmd)
                           = modificationType (config cmd1))).
    { intros [Hr Hk]. apply Hne.
      pose proof (proj2 Hs c1) as H1. rewrite Hcmd1 in H1.
      destruct (commands h0 !! c1) as [cmd0|] eqn:E0; [|discriminate].
      cbn in H1. injection H1 as H1.
      apply (Huniq c1 cmd0 E0); rewrite <- H1; congruence. }
    destruct m; cbn [invoke command_execute command_undo ModifyCommand_Command].
    + destruct (execute_fields _ _ _ Hcmd1 Ha) as (h1 & v & -> & Hv & Hcs & S1 & Hf1).
      cbn [state_after]. split; [apply (same_shape_trans _ _ _ Hs S1)|]. split.
      * rewrite Hcs. rewrite lookup_insert_ne by done. exact Hc.
      * rewrite Hf1. rewrite decide_False by exact Hother. exact Hf.
    + destruct (undo_fields _ _ _ Hcmd1 Ha) as (h1 & -> & Hcs & S1 & Hf1).
      cbn [state_after]. split; [apply (same_shape_trans _ _ _ Hs S1)|]. split.
      * by rewrite Hcs.
      * rewrite Hf1. rewrite decide_False by exact Hother. exact Hf.
Qed.

Lemma twice_executed_field (s : State cref) (c : cref) (cmd : ModifyCommand)
    (cs : list (Call cref)) :
  commands (heap s) !! c = Some cmd ->
  applicable (heap s) c = true ->
  (forall c' cmd', commands (heap s) !! c' = Some cmd' ->
     receiver (config cmd') = receiver (config cmd) ->
     modificationType (config cmd') = modificationType (config cmd) -> c' = c) ->
  field (heap (state_after (run (CallExecute c :: CallExecute c :: cs) s)))
        (receiver (config cmd)) (modificationType (config cmd))
  = Some (VString (changedValue (config cmd))).
Proof.
  intros Hcmd Ha Huniq.
  destruct (execute_fields _ _ _ Hcmd Ha) as (h1 & v & X1 & _ & Hcs1 & S1 & Hf1).
  assert (Hcmd1 : commands h1 !! c
                  = Some {| config := config cmd; previousValue := v |}).
  { rewrite Hcs1. apply lookup_insert_eq. }
  assert (Ha1 : applicable h1 c = true)
    by (by rewrite (same_shape_applicable _ _ c S1)).
  destruct (execute_fields _ _ _ Hcmd1 Ha1) as (h2 & w & X2 & Hw & Hcs2 & S2 & Hf2).
  cbn [config] in *.
  rewrite Hf1, decide_True in Hw by done. injection Hw as <-.
  cbn [run perform]. unfold bind at 1.
  rewrite execute_unfold. cbn [command_execute ModifyCommand_Command].
  rewrite X1. unfold bind at 1.
  rewrite execute_unfold. cbn [command_execute ModifyCommand_Command heap].
  rewrite X2.
  match goal with
  | |- field (heap (state_after (run cs ?s2))) _ _ = _ => set (st := s2)
  end.
  apply (run_heap_invariant
           (fun h =>
              same_shape (heap s) h
              /\ commands h !! c
                 = Some {| config := config cmd;
                           previousValue := VString (changedValue (config cmd)) |}
              /\ field h (receiver (config cmd)) (modificationType (config cmd))
                 = Some (VString (changedValue (config cmd)))) (C := cref)).
  - intros mc h Hst. apply (stuck_invoke (heap s) c cmd mc h Hcmd Huniq Hst).
  - change (heap st) with h2. split; [apply (same_shape_trans _ _ _ S1 S2)|].
    split.
    + rewrite Hcs2. apply lookup_insert_eq.
    + rewrite Hf2. by rewrite decide_True.
Qed.

(** X8. After [execute(c)] called twice in a row on a [ModifyCommand] that is
    the only command of the heap on its field, the field holds the new value
    for good: whatever [execute], [undo] and [redo] calls follow, the value
    from before the first [execute] does not come back. *)
Theorem executed_twice_sticks (s : State cref) (c : cref) (cmd : ModifyCommand)
    (cs : list (Call cref)) :
  commands (heap s) !! c = Some cmd ->
  applicable (heap s) c = true ->
  (forall c' cmd', commands (heap s) !! c' = Some cmd' ->
     receiver (config cmd') = receiver (config cmd) ->
     modificationType (config cmd') = modificationType (config cmd) -> c' = c) ->
  field (heap (state_after (run (CallExecute c :: CallExecute c :: cs) s)))
        (receiver (config cmd)) (modificationType (config cmd))
  = Some (VString (changedValue (config cmd))).
Proof. apply twice_executed_field. Qed.

(** ** A command that throws *)

(** X2. When [command.execute()] throws inside [Invoker.execute] (here: the
    reference is no command, or its receiver is no object), the redo entries
    are already discarded and the command is already in the log, with the
    cursor unmoved: the command that failed is what [redo()] calls next. That
    [redo()] throws again but has moved the cursor, which now counts the
    command as applied, and an [undo()] then throws and moves it back. The
    heap is the same throughout. *)
Theorem failed_execute_is_redoable (s : State cref) (c : cref) :
  reachable s ->
  applicable (heap s) c = false ->
  exists s1 s2,
    Invoker.execute c s = Throw TypeError s1
    /\ heap s1 = heap s /\ applied s1 = applied s /\ redoable s1 = [c]
    /\ Invoker.redo s1 = Throw TypeError s2
    /\ heap s2 = heap s /\ applied s2 = applied s ++ [c] /\ redoable s2 = []
    /\ Invoker.undo s2 = Throw TypeError s1.
Proof.
  intros Hr Ha. pose proof (reachable_cursor_inv s Hr) as Hinv.
  pose proof (length_applied s Hinv) as Hlen.
  set (L := applied s ++ [c]).
  set (s1 := {| heap := heap s;
                invoker := {| executedCommands := L;
                              currentExecutionState := cursor s |} |}).
  set (s2 := {| heap := heap s;
                invoker := {| executedCommands := L;
                              currentExecutionState := cursor s + 1 |} |}).
  assert (E1 : Invoker.execute c s = Throw TypeError s1).
  { rewrite execute_unfold. cbn [command_execute ModifyCommand_Command].
    rewrite (not_applicable_execute _ _ Ha).
    by rewrite (log_on_execute_prefix s c Hinv). }
  assert (Hi : index L (cursor s + 1) = Some c).
  { unfold L. rewrite <- Hlen. apply index_middle. }
  assert (HL : Z.of_nat (length L) = cursor s + 2).
  { unfold L. rewrite length_app. cbn. lia. }
  assert (E2 : Invoker.redo s1 = Throw TypeError s2).
  { rewrite redo_unfold. unfold s1, log, cursor. cbn.
    fold (cursor s). rewrite HL.
    destruct (Z.ltb_spec (cursor s) (cursor s + 2 - 1)) as [_|]; [|lia].
    rewrite Hi. by rewrite (not_applicable_execute _ _ Ha). }
  assert (E3 : Invoker.undo s2 = Throw TypeError s1).
  { rewrite undo_unfold. unfold s2, log, cursor. cbn. fold (cursor s).
    destruct Hinv as [Hlo _].
    destruct (Z.geb_spec (cursor s + 1) 0) as [_|]; [|lia].
    rewrite Hi. rewrite (not_applicable_undo _ _ Ha). unfold s1.
    do 3 f_equal. lia. }
  destruct (applied_split s1 (applied s) [c]) as [A1 R1];
    [reflexivity | unfold s1, cursor at 1; cbn; fold (cursor s); lia |].
  destruct (applied_split s2 L []) as [A2 R2];
    [unfold s2, log; cbn; by rewrite app_nil_r
    |unfold s2, cursor; cbn; fold (cursor s); lia |].
  exists s1, s2. repeat split; assumption.
Qed.

(** ** The heap as the applied entries executed in order *)

Lemma replay_app {C : Type} `{Command C} (t1 t2 : list (Method * C)) (h : Heap) :
  replay (t1 ++ t2) h =
  match replay t1 h with
  | Normal _ h1 => replay t2 h1
  | Throw e h1 => Throw e h1
  end.
Proof.
  revert h. induction t1 as [|mc t1 IH]; intros h; [reflexivity|].
  cbn [app replay]. unfold bind.
  destruct (invoke mc h) as [[] h1|e h1]; [apply IH|reflexivity].
Qed.

Lemma executes_snoc {C : Type} (A : list C) (c : C) :
  executes (A ++ [c]) = executes A ++ [(MExecute, c)].
Proof. unfold executes. by rewrite map_app. Qed.

Lemma replay_executes_snoc (A : list cref) (c : cref) (h0 hA : Heap) :
  replay (executes A) h0 = Normal tt hA ->
  replay (executes (A ++ [c])) h0 =
  match ModifyCommand.execute c hA with
  | Normal _ h1 => Normal tt h1
  | Throw e h1 => Throw e h1
  end.
Proof.
  intros HA. rewrite executes_snoc, replay_app, HA. reflexivity.
Qed.

Lemma replay_same_shape (t : list (Method * cref)) (h hf : Heap) :
  replay t h = Normal tt hf -> same_shape h hf.
Proof.
  revert h. induction t as [|mc t IH]; intros h.
  - cbn. intros [= <-]. apply same_shape_refl.
  - cbn [replay]. unfold bind.
    pose proof (invoke_same_shape mc h) as S1.
    destruct (invoke mc h) as [[] h1|e h1]; [|discriminate].
    intros Hrest. apply (same_shape_trans _ _ _ S1), IH, Hrest.
Qed.

Lemma snoc_split {A : Type} (l P Q : list A) (x y : A) :
  l ++ [x] = P ++ y :: Q ->
  (Q = [] /\ P = l /\ y = x) \/ (exists Q', Q = Q' ++ [x] /\ l = P ++ y :: Q').
Proof.
  destruct Q as [|z Q _] using rev_ind.
  - intros Heq. apply app_inj_tail in Heq as [-> ->]. by left.
  - intros Heq. right. exists Q.
    change (P ++ y :: Q ++ [z]) with (P ++ (y :: Q) ++ [z]) in Heq.
    rewrite app_assoc in Heq. apply app_inj_tail in Heq as [-> ->]. done.
Qed.

Lemma replays_nil (h0 : Heap) : replays h0 [] h0.
Proof.
  split; [apply same_shape_refl|]. split.
  - intros P c Q Heq. by destruct P.
  - exists h0. split; [reflexivity|done].
Qed.

Lemma replays_push (h0 : Heap) (A : list cref) (h : Heap) (c : cref) (h1 : Heap) :
  replays h0 A h ->
  c ∉ A ->
  ModifyCommand.execute c h = Normal tt h1 ->
  replays h0 (A ++ [c]) h1.
Proof.
  intros (S & HP & hE & RE & FE) Hnotin X.
  pose proof (invoke_returns_applicable (MExecute, c) h h1 X) as Ha. cbn in Ha.
  destruct (applicable_inv _ _ Ha) as (cmd & obj & Hcmd & _).
  destruct (execute_fields _ _ _ Hcmd Ha) as (h1' & v & X' & Hv & Hcs & S1 & Hf1).
  rewrite X in X'. injection X' as <-.
  pose proof (replay_same_shape _ _ _ RE) as SE.
  assert (HaE : applicable hE c = true).
  { rewrite (same_shape_applicable _ _ c SE).
    by rewrite <- (same_shape_applicable _ _ c S). }
  destruct (applicable_inv _ _ HaE) as (cmdE & objE & HcmdE & _).
  assert (Hcfg : config cmdE = config cmd).
  { pose proof (proj2 S c) as H1. pose proof (proj2 SE c) as H2.
    rewrite Hcmd in H1. rewrite HcmdE in H2. rewrite <- H2 in H1.
    cbn in H1. congruence. }
  destruct (execute_fields _ _ _ HcmdE HaE)
    as (hE1 & vE & XE & _ & _ & _ & HfE1).
  rewrite Hcfg in HfE1.
  split; [apply (same_shape_trans _ _ _ S S1)|]. split.
  - intros P c' Q Heq. apply snoc_split in Heq as [(-> & -> & ->)|(Q' & -> & ->)].
    + exists hE, {| config := config cmd; previousValue := v |}.
      split; [exact RE|]. split; [rewrite Hcs; apply lookup_insert_eq|].
      cbn. by rewrite <- FE.
    + destruct (HP P c' Q' eq_refl) as (hP & cmd' & RP & Hcmd' & Hprev).
      exists hP, cmd'. split; [exact RP|]. split; [|exact Hprev].
      rewrite Hcs. rewrite lookup_insert_ne; [exact Hcmd'|].
      intros <-. apply Hnotin. apply elem_of_app. right. apply list_elem_of_here.
  - exists hE1. split.
    + by rewrite (replay_executes_snoc A c h0 hE RE), XE.
    + intros o k. rewrite Hf1, HfE1. case_decide; [reflexivity|apply FE].
Qed.

Lemma replays_pop (h0 : Heap) (A : list cref) (c : cref) (h h1 : Heap) :
  replays h0 (A ++ [c]) h ->
  ModifyCommand.undo c h = Normal tt h1 ->
  replays h0 A h1.
Proof.
  intros (S & HP & hE & RE & FE) X.
  pose proof (invoke_returns_applicable (MUndo, c) h h1 X) as Ha. cbn in Ha.
  destruct (HP A c [] eq_refl) as (hA & cmd & RA & Hcmd & Hprev).
  destruct (undo_fields _ _ _ Hcmd Ha) as (h1' & X' & Hcs & S1 & Hf1).
  rewrite X in X'. injection X' as <-.
  rewrite (replay_executes_snoc A c h0 hA RA) in RE.
  destruct (ModifyCommand.execute c hA) as [[] hE'|e hE'] eqn:XA; [|discriminate].
  injection RE as ->.
  pose proof (invoke_returns_applicable (MExecute, c) hA hE XA) as HaA.
  cbn in HaA.
  destruct (applicable_inv _ _ HaA) as (cmdA & objA & HcmdA & _).
  pose proof (replay_same_shape _ _ _ RA) as SA.
  assert (Hcfg : config cmdA = config cmd).
  { pose proof (proj2 S c) as H1. pose proof (proj2 SA c) as H2.
    rewrite Hcmd in H1. rewrite HcmdA in H2. rewrite <- H2 in H1.
    cbn in H1. congruence. }
  destruct (execute_fields _ _ _ HcmdA HaA) as (hE' & vA & XA' & _ & _ & _ & HfE).
  rewrite XA in XA'. injection XA' as <-. rewrite Hcfg in HfE.
  split; [apply (same_shape_trans _ _ _ S S1)|]. split.
  - intros P c' Q Heq.
    destruct (HP P c' (Q ++ [c])) as (hP & cmd' & RP & Hcmd' & Hprev').
    { rewrite Heq. by rewrite <- app_assoc. }
    exists hP, cmd'. rewrite Hcs. auto.
  - exists hA. split; [exact RA|].
    intros o k. rewrite Hf1. case_decide as Hd.
    + destruct Hd as [-> ->]. by rewrite Hprev.
    + rewrite FE, HfE. by rewrite decide_False.
Qed.

Lemma consistent_fresh (h0 : Heap) : consistent h0 (fresh h0).
Proof.
  split; [split; [apply cursor_inv_fresh | constructor]|].
  split; [constructor | apply replays_nil].
Qed.

Lemma NoDup_log_applied (s : State cref) (c : cref) (R : list cref) :
  NoDup (log s) -> redoable s = c :: R -> NoDup (applied s) /\ c ∉ applied s.
Proof.
  intros Hnd HR. rewrite (log_applied_redoable s), HR in Hnd.
  apply NoDup_app in Hnd as (Hnd & Hdisj & _). split; [exact Hnd|].
  intros Hin. apply (Hdisj c Hin). apply list_elem_of_here.
Qed.

(** One call in a consistent state. *)
Lemma consistent_perform (h0 : Heap) (s : State cref) (c : Call cref) :
  consistent h0 s ->
  call_applicable h0 c = true ->
  match c with
  | CallExecute command => command ∉ applied s
  | CallUndo | CallRedo => True
  end ->
  exists s', perform c s = Normal tt s' /\ consistent h0 s'.
Proof.
  intros (Hwf & Hnd & Hrep) Hc Hun.
  pose proof (proj1 Hrep) as S0.
  assert (Hc' : call_applicable (heap s) c = true).
  { destruct c as [o| |]; cbn in *; [|done..].
    by rewrite (same_shape_applicable _ _ o S0). }
  destruct (perform_well_formed s c Hwf Hc') as (s' & E & Hwf' & S1).
  exists s'. split; [exact E|]. split; [exact Hwf'|].
  pose proof (proj1 Hwf) as Hinv.
  pose proof (perform_dispatched (H := ModifyCommand_Command) c s s' E) as Hd.
  destruct c as [o| |]; cbn [perform] in *.
  - pose proof (execute_stacks (H := ModifyCommand_Command) s o Hinv) as Hst.
    rewrite E in Hst. cbn [returns state_after] in Hst. destruct Hst as [Ha Hre].
    cbn [dispatched invoke command_execute ModifyCommand_Command] in Hd.
    split.
    + rewrite (log_applied_redoable s'), Ha, Hre, app_nil_r.
      apply NoDup_app. split; [|split; [|apply NoDup_singleton]].
      * rewrite (log_applied_redoable s) in Hnd.
        by apply NoDup_app in Hnd as (? & _).
      * intros x Hx Hx'. apply list_elem_of_singleton in Hx' as ->. by apply Hun.
    + rewrite Ha. apply (replays_push h0 (applied s) (heap s) o _ Hrep Hun Hd).
  - destruct (applied s) as [|x P _] eqn:HA using rev_ind.
    + pose proof (applied_nil_cursor s Hinv HA) as Hcur.
      rewrite (undo_at_start (H := ModifyCommand_Command) s) in E by lia.
      injection E as <-. rewrite HA. auto.
    + destruct (undo_stacks (H := ModifyCommand_Command) s P x Hinv HA)
        as (Hdd & Ha & Hre & _).
      rewrite E in Ha, Hre. cbn [state_after] in Ha, Hre.
      rewrite Hdd in Hd. cbn [invoke command_undo ModifyCommand_Command] in Hd.
      split.
      * rewrite (log_applied_redoable s'), Ha, Hre.
        rewrite (log_applied_redoable s), HA, <- app_assoc in Hnd. exact Hnd.
      * rewrite Ha. apply (replays_pop h0 P x (heap s) _ Hrep Hd).
  - destruct (redoable s) as [|x R] eqn:HR.
    + pose proof (redoable_nil_cursor s Hinv HR) as Hcur.
      rewrite (redo_at_end (H := ModifyCommand_Command) s) in E by lia.
      injection E as <-. auto.
    + destruct (redo_stacks (H := ModifyCommand_Command) s x R Hinv HR)
        as (Hdd & Ha & Hre & _).
      rewrite E in Ha, Hre. cbn [state_after] in Ha, Hre.
      rewrite Hdd in Hd. cbn [invoke command_execute ModifyCommand_Command] in Hd.
      destruct (NoDup_log_applied s x R Hnd HR) as [_ Hnotin].
      split.
      * rewrite (log_applied_redoable s'), Ha, Hre, <- app_assoc.
        rewrite (log_applied_redoable s), HR in Hnd. exact Hnd.
      * rewrite Ha. apply (replays_push h0 (applied s) (heap s) x _ Hrep Hnotin Hd).
Qed.

Lemma consistent_run (h0 : Heap) (cs : list (Call cref)) :
  forall s : State cref,
    consistent h0 s ->
    Forall (fun c => call_applicable h0 c = true) cs ->
    executes_unapplied cs s ->
    exists s', run cs s = Normal tt s' /\ consistent h0 s'.
Proof.
  induction cs as [|c cs IH]; intros s Hcons Hcs Hun.
  - exists s. split; [reflexivity|exact Hcons].
  - apply Forall_cons in Hcs as [Hc Hcs]. cbn [executes_unapplied] in Hun.
    destruct Hun as [Hun1 Hun].
    destruct (consistent_perform h0 s c Hcons Hc Hun1) as (s1 & E1 & Hcons1).
    rewrite E1 in Hun. cbn [state_after] in Hun.
    destruct (IH s1 Hcons1 Hcs Hun) as (s' & E' & Hcons').
    exists s'. split; [|exact Hcons'].
    cbn [run]. unfold bind. by rewrite E1.
Qed.

(** X5. With [ModifyCommand]s whose receivers are objects, and when no
    [execute(c)] is made while [c] is among the applied entries, every
    sequence of [execute], [undo] and [redo] calls on a fresh [Invoker]
    returns and leaves each field of each target with the value that
    executing the applied entries of the log, in order, gives on the
    starting heap: what is undone is gone and what is redone is back. *)
Theorem history_is_applied_prefix (h0 : Heap) (cs : list (Call cref)) :
  Forall (fun c => call_applicable h0 c = true) cs ->
  executes_unapplied cs (fresh h0) ->
  exists s' hE,
    run cs (fresh h0) = Normal tt s'
    /\ replay (executes (applied s')) h0 = Normal tt hE
    /\ forall o key, field (heap s') o key = field hE o key.
Proof.
  intros Hcs Hun.
  destruct (consistent_run h0 cs (fresh h0) (consistent_fresh h0) Hcs Hun)
    as (s' & E & _ & _ & _ & _ & hE & RE & FE).
  exists s', hE. auto.
Qed.

Lemma consistent_undos (h0 : Heap) (n : nat) :
  forall s : State cref,
    consistent h0 s ->
    exists s',
      run (repeat CallUndo n) s = Normal tt s'
      /\ consistent h0 s'
      /\ log s' = log s
      /\ cursor s' = Z.max (-1) (cursor s - Z.of_nat n).
Proof.
  induction n as [|n IH]; intros s Hcons.
  - exists s. pose proof (proj1 (proj1 Hcons)) as [Hlo _].
    repeat split; try apply Hcons. lia.
  - destruct (consistent_perform h0 s CallUndo Hcons eq_refl I)
      as (s1 & E1 & Hcons1).
    pose proof (proj1 (proj1 Hcons)) as Hinv.
    pose proof (proj1 (proj1 Hcons1)) as Hinv1.
    assert (Hs1 : log s1 = log s
                  /\ cursor s1 = if cursor s >=? 0 then cursor s - 1 else cursor s).
    { cbn [perform] in E1. rewrite undo_unfold in E1.
      destruct (cursor s >=? 0).
      - destruct (index (log s) (cursor s)) as [x|]; [|discriminate].
        destruct (command_undo x (heap s)) as [[] h|e h]; [|discriminate].
        injection E1 as <-. auto.
      - injection E1 as <-. auto. }
    destruct Hs1 as [Hl1 Hc1].
    destruct (IH s1 Hcons1) as (s' & E' & Hcons' & Hl' & Hc').
    exists s'. split; [|split; [exact Hcons'|split; [congruence|]]].
    + cbn [repeat run]. unfold bind. by rewrite E1.
    + rewrite Hc', Hc1. destruct Hinv as [Hlo _].
      destruct (Z.geb_spec (cursor s) 0); lia.
Qed.

Lemma consistent_fields (h0 : Heap) (s1 s2 : State cref) :
  consistent h0 s1 -> consistent h0 s2 -> applied s1 = applied s2 ->
  forall o key, field (heap s1) o key = field (heap s2) o key.
Proof.
  intros (_ & _ & _ & _ & hE1 & R1 & F1) (_ & _ & _ & _ & hE2 & R2 & F2) Ha o k.
  rewrite Ha, R2 in R1. injection R1 as ->. by rewrite F1, F2.
Qed.

(** X6. In the same setting, after any such call sequence, [undo()] called at
    least as many times as there are applied entries returns every time,
    leaves the cursor at [-1] and the log as it was, and gives every field
    of every target the value it had on the starting heap. *)
Theorem undo_everything (h0 : Heap) (cs : list (Call cref)) :
  Forall (fun c => call_applicable h0 c = true) cs ->
  executes_unapplied cs (fresh h0) ->
  exists s',
    run cs (fresh h0) = Normal tt s'
    /\ forall n : nat,
         cursor s' + 1 <= Z.of_nat n ->
         exists s'',
           run (repeat CallUndo n) s' = Normal tt s''
           /\ cursor s'' = -1
           /\ log s'' = log s'
           /\ forall o key, field (heap s'') o key = field h0 o key.
Proof.
  intros Hcs Hun.
  destruct (consistent_run h0 cs (fresh h0) (consistent_fresh h0) Hcs Hun)
    as (s' & E & Hcons).
  exists s'. split; [exact E|]. intros n Hn.
  destruct (consistent_undos h0 n s' Hcons) as (s'' & E'' & Hcons'' & Hl & Hc).
  pose proof (proj1 (proj1 Hcons)) as [Hlo _].
  assert (Hcur : cursor s'' = -1) by lia.
  exists s''. repeat split; try assumption.
  intros o k.
  apply (consistent_fields h0 s'' (fresh h0) Hcons'' (consistent_fresh h0)).
  unfold applied. rewrite Hcur. reflexivity.
Qed.

Lemma invoker_eq (s1 s2 : State cref) :
  applied s1 = applied s2 -> redoable s1 = redoable s2 ->
  cursor_inv s1 -> cursor_inv s2 -> invoker s1 = invoker s2.
Proof.
  intros Ha Hr Hi1 Hi2.
  pose proof (length_applied s1 Hi1) as L1.
  pose proof (length_applied s2 Hi2) as L2.
  pose proof (log_applied_redoable s1) as G1.
  pose proof (log_applied_redoable s2) as G2.
  rewrite Ha in L1. rewrite Ha, Hr, <- G2 in G1.
  unfold log, cursor in *.
  destruct (invoker s1) as [l1 c1], (invoker s2) as [l2 c2]. cbn in *.
  f_equal; [exact G1 | lia].
Qed.

(** X7. In the same setting, after any such call sequence with something to
    undo, [undo()] followed by [redo()] returns and gives back the same log,
    cursor and field values; with something to redo, so does [redo()]
    followed by [undo()]. *)
Theorem undo_redo_round_trip (h0 : Heap) (cs : list (Call cref)) :
  Forall (fun c => call_applicable h0 c = true) cs ->
  executes_unapplied cs (fresh h0) ->
  exists s',
    run cs (fresh h0) = Normal tt s'
    /\ (0 <= cursor s' ->
        exists s'',
          run [CallUndo; CallRedo] s' = Normal tt s''
          /\ invoker s'' = invoker s'
          /\ forall o key, field (heap s'') o key = field (heap s') o key)
    /\ (cursor s' < Z.of_nat (length (log s')) - 1 ->
        exists s'',
          run [CallRedo; CallUndo] s' = Normal tt s''
          /\ invoker s'' = invoker s'
          /\ forall o key, field (heap s'') o key = field (heap s') o key).
Proof.
  intros Hcs Hun.
  destruct (consistent_run h0 cs (fresh h0) (consistent_fresh h0) Hcs Hun)
    as (s' & E & Hcons).
  pose proof (proj1 (proj1 Hcons)) as Hinv.
  pose proof (length_applied s' Hinv) as Hlen.
  exists s'. split; [exact E|]. split.
  - intros Hpos.
    destruct (applied s') as [|x P _] eqn:HA using rev_ind; [cbn in Hlen; lia|].
    destruct (consistent_perform h0 s' CallUndo Hcons eq_refl I)
      as (s1 & E1 & Hcons1).
    destruct (undo_stacks (H := ModifyCommand_Command) s' P x Hinv HA)
      as (_ & Ha1 & Hr1 & _).
    cbn [perform] in E1. rewrite E1 in Ha1, Hr1. cbn [state_after] in Ha1, Hr1.
    destruct (consistent_perform h0 s1 CallRedo Hcons1 eq_refl I)
      as (s2 & E2 & Hcons2).
    destruct (redo_stacks (H := ModifyCommand_Command) s1 x (redoable s')
                (proj1 (proj1 Hcons1)) Hr1) as (_ & Ha2 & Hr2 & _).
    cbn [perform] in E2. rewrite E2 in Ha2, Hr2. cbn [state_after] in Ha2, Hr2.
    rewrite Ha1 in Ha2.
    exists s2. split; [|split].
    + cbn [run perform]. unfold bind. by rewrite E1, E2.
    + apply invoker_eq; [by rewrite HA | exact Hr2
                        | apply (proj1 (proj1 Hcons2)) | exact Hinv].
    + apply (consistent_fields h0 s2 s' Hcons2 Hcons). by rewrite HA.
  - intros Hlt.
    destruct (redoable s') as [|x R] eqn:HR.
    { pose proof (redoable_nil_cursor s' Hinv HR). lia. }
    destruct (consistent_perform h0 s' CallRedo Hcons eq_refl I)
      as (s1 & E1 & Hcons1).
    destruct (redo_stacks (H := ModifyCommand_Command) s' x R Hinv HR)
      as (_ & Ha1 & Hr1 & _).
    cbn [perform] in E1. rewrite E1 in Ha1, Hr1. cbn [state_after] in Ha1, Hr1.
    destruct (consistent_perform h0 s1 CallUndo Hcons1 eq_refl I)
      as (s2 & E2 & Hcons2).
    destruct (undo_stacks (H := ModifyCommand_Command) s1 (applied s') x
                (proj1 (proj1 Hcons1)) Ha1) as (_ & Ha2 & Hr2 & _).
    cbn [perform] in E2. rewrite E2 in Ha2, Hr2. cbn [state_after] in Ha2, Hr2.
    rewrite Hr1 in Hr2.
    exists s2. split; [|split].
    + cbn [run perform]. unfold bind. by rewrite E1, E2.
    + apply invoker_eq; [exact Ha2 | by rewrite HR
                        | apply (proj1 (proj1 Hcons2)) | exact Hinv].
    + apply (consistent_fields h0 s2 s' Hcons2 Hcons). exact Ha2.
Qed.

(** * The concrete commands and the page *)

Lemma fresh_cref_None (h : Heap) : commands h !! fresh_cref h = None.
Proof.
  apply not_elem_of_dom. intros Hin.
  apply (is_fresh (set_map (D := gset nat) cref_id (dom (commands h)))).
  apply elem_of_map. exists (fresh_cref h). split; [reflexivity|exact Hin].
Qed.

Section PageFacts.

Variable style : oref -> oref.
Variables (mainText : oref) (h : Heap).

Lemma load_null :
  objects h !! mainText = None -> Page.load style mainText h = Throw TypeError h.
Proof.
  intros Hnone. unfold Page.load, bind, Page.ChangeFontSizeCommand, bind,
    Page.get_style. cbn. by rewrite Hnone.
Qed.

Lemma load_found (el : gmap string value) :
  objects h !! mainText = Some el ->
  exists f c t,
    Page.load style mainText h
    = Normal {| Page.increaseFontSizeCommand := f;
                Page.changeColorToBlueCommand := c;
                Page.changeTextCommand := t |}
             {| objects := objects h;
                commands :=
                  <[t := new_ModifyCommand
                           {| receiver := mainText;
                              changedValue := "TEXT HAS BEEN CHANGED";
                              modificationType := "textContent" |}]>
                    (<[c := new_ModifyCommand
                              {| receiver := style mainText;
                                 changedValue := "blue";
                                 modificationType := "color" |}]>
                       (<[f := new_ModifyCommand
                                 {| receiver := style mainText;
                                    changedValue := "25px";
                                    modificationType := "fontSize" |}]>
                          (commands h))) |}
    /\ commands h !! f = None /\ commands h !! c = None /\ commands h !! t = None
    /\ f <> c /\ f <> t /\ c <> t.
Proof.
  intros Hel.
  set (h1 := {| objects := objects h;
                commands :=
                  <[fresh_cref h :=
                      new_ModifyCommand
                        {| receiver := style mainText; changedValue := "25px";
                           modificationType := "fontSize" |}]> (commands h) |}).
  set (h2 := {| objects := objects h;
                commands :=
                  <[fresh_cref h1 :=
                      new_ModifyCommand
                        {| receiver := style mainText; changedValue := "blue";
                           modificationType := "color" |}]> (commands h1) |}).
  pose proof (fresh_cref_None h) as N0.
  pose proof (fresh_cref_None h1) as N1.
  pose proof (fresh_cref_None h2) as N2.
  exists (fresh_cref h), (fresh_cref h1), (fresh_cref h2).
  assert (Hfc : fresh_cref h <> fresh_cref h1).
  { intros Heq. rewrite <- Heq in N1. unfold h1 in N1. cbn in N1.
    by rewrite lookup_insert_eq in N1. }
  assert (Hct : fresh_cref h1 <> fresh_cref h2).
  { intros Heq. rewrite <- Heq in N2. unfold h2 in N2. cbn in N2.
    by rewrite lookup_insert_eq in N2. }
  assert (Hft : fresh_cref h <> fresh_cref h2).
  { intros Heq. rewrite <- Heq in N2. unfold h2, h1 in N2. cbn in N2.
    rewrite lookup_insert_ne, lookup_insert_eq in N2 by (by apply not_eq_sym).
    discriminate. }
  split; [|split; [exact N0|split; [|split; [|auto]]]].
  - unfold Page.load, bind, Page.ChangeFontSizeCommand,
      Page.ChangeTextColorCommand, Page.ChangeTextCommand, bind, Page.get_style,
      new_command, ret. cbn. rewrite Hel. cbn. rewrite Hel. reflexivity.
  - unfold h1 in N1. cbn in N1. by rewrite lookup_insert_ne in N1.
  - unfold h2, h1 in N2. cbn in N2.
    rewrite !lookup_insert_ne in N2 by (by apply not_eq_sym). exact N2.
Qed.

End PageFacts.

(** X9. The [load] listener, on a page whose [h5] element is missing, throws
    a [TypeError] in the first constructor ([ChangeFontSizeCommand] reads
    [receiver.style]) and leaves nothing behind. Otherwise it returns three
    pairwise distinct new commands, each still unexecuted and built with the
    target, value and key of its class, and changes nothing else: no object
    and no command that was there before. *)
Theorem load_commands (style : oref -> oref) (mainText : oref) (h : Heap) :
  match objects h !! mainText with
  | None => Page.load style mainText h = Throw TypeError h
  | Some _ =>
      exists p h',
        Page.load style mainText h = Normal p h'
        /\ objects h' = objects h
        /\ NoDup [Page.increaseFontSizeCommand p; Page.changeColorToBlueCommand p;
                  Page.changeTextCommand p]
        /\ (forall b c, Page.command_of p b = Some c ->
              commands h !! c = None
              /\ commands h' !! c
                 = new_ModifyCommand <$> Page.config_of style mainText b)
        /\ (forall c cmd, commands h !! c = Some cmd -> commands h' !! c = Some cmd)
  end.
Proof.
  destruct (objects h !! mainText) as [el|] eqn:Hel; [|by apply load_null].
  destruct (load_found style mainText h el Hel)
    as (f & c & t & E & Nf & Nc & Nt & Hfc & Hft & Hct).
  eexists _, _. split; [exact E|]. split; [reflexivity|]. cbn.
  split; [|split].
  - apply NoDup_cons. split.
    { apply not_elem_of_cons. split; [exact Hfc|].
      apply not_elem_of_cons. split; [exact Hft | apply not_elem_of_nil]. }
    apply NoDup_cons. split; [|apply NoDup_singleton].
    apply not_elem_of_cons. split; [exact Hct | apply not_elem_of_nil].
  - intros b c' Hb. destruct b; cbn in Hb; try discriminate;
      injection Hb as <-; (split; [assumption|]); cbn.
    + by rewrite lookup_insert_ne, lookup_insert_eq.
    + rewrite !lookup_insert_ne by done. by rewrite lookup_insert_eq.
    + by rewrite lookup_insert_eq.
  - intros c' cmd Hc'.
    rewrite !lookup_insert_ne; [exact Hc'|congruence..].
Qed.

(** After [load] on a page with the element and its style object, the three
    commands can run. *)
Lemma load_applicable (style : oref -> oref) (mainText : oref) (h : Heap)
    (el st : gmap string value) (p : Page.Commands) (h' : Heap) :
  objects h !! mainText = Some el ->
  objects h !! style mainText = Some st ->
  Page.load style mainText h = Normal p h' ->
  forall b, call_applicable h' (Page.click p b) = true.
Proof.
  intros Hel Hst E.
  destruct (load_found style mainText h el Hel)
    as (f & c & t & E' & _ & _ & _ & Hfc & Hft & Hct).
  rewrite E in E'. injection E' as -> ->.
  intros b. destruct b; cbn; try reflexivity; unfold applicable; cbn.
  - rewrite lookup_insert_ne, lookup_insert_eq by done. cbn.
    apply bool_decide_eq_true. by rewrite Hst.
  - rewrite !lookup_insert_ne by done. rewrite lookup_insert_eq. cbn.
    apply bool_decide_eq_true. by rewrite Hst.
  - rewrite lookup_insert_eq. cbn. apply bool_decide_eq_true. by rewrite Hel.
Qed.

(** X10. After [load] on a page where the [h5] element and its style object
    exist, no sequence of clicks on the five buttons throws: every listener
    returns, and the state it leaves keeps the cursor in range and holds only
    commands that can run. *)
Theorem clicks_return (style : oref -> oref) (mainText : oref) (h : Heap)
    (el st : gmap string value) (p : Page.Commands) (h' : Heap)
    (bs : list Page.Button) :
  objects h !! mainText = Some el ->
  objects h !! style mainText = Some st ->
  Page.load style mainText h = Normal p h' ->
  exists s',
    run (map (Page.click p) bs) (fresh h') = Normal tt s' /\ well_formed s'.
Proof.
  intros Hel Hst E.
  destruct (run_well_formed (map (Page.click p) bs) (fresh h'))
    as (s' & Hrun & Hwf & _).
  - split; [apply cursor_inv_fresh | constructor].
  - apply Forall_forall. intros c Hc.
    apply list_elem_of_fmap in Hc as (b & -> & _).
    apply (load_applicable style mainText h el st p h' Hel Hst E).
  - exists s'. auto.
Qed.

(** X11. On that page, when the commands that were there before [load] have
    other receivers, two clicks in a row on one of the three change buttons
    leave its property ([style.color], [style.fontSize] or [textContent]) at
    the button's value for good: no later sequence of clicks, undo and redo
    included, brings the value from before the first click back. *)
Theorem double_click_sticks (style : oref -> oref) (mainText : oref) (h : Heap)
    (el st : gmap string value) (p : Page.Commands) (h' : Heap)
    (b : Page.Button) (cfg : ModifyCommandConfig) (bs : list Page.Button) :
  objects h !! mainText = Some el ->
  objects h !! style mainText = Some st ->
  (forall c cmd, commands h !! c = Some cmd ->
     receiver (config cmd) <> mainText
     /\ receiver (config cmd) <> style mainText) ->
  Page.load style mainText h = Normal p h' ->
  Page.config_of style mainText b = Some cfg ->
  field (heap (state_after
                 (run (Page.click p b :: Page.click p b :: map (Page.click p) bs)
                      (fresh h'))))
        (receiver cfg) (modificationType cfg)
  = Some (VString (changedValue cfg)).
Proof.
  intros Hel Hst Hold E Hcfg.
  pose proof (load_applicable style mainText h el st p h' Hel Hst E b) as Ha.
  destruct (load_found style mainText h el Hel)
    as (f & c & t & E' & Nf & Nc & Nt & Hfc & Hft & Hct).
  rewrite E in E'. injection E' as -> ->.
  assert (Huniq : forall (x : cref) c' cmd',
            Page.command_of
              {| Page.increaseFontSizeCommand := f;
                 Page.changeColorToBlueCommand := c;
                 Page.changeTextCommand := t |} b = Some x ->
            commands
              {| objects := objects h;
                 commands :=
                   <[t := new_ModifyCommand
                            {| receiver := mainText;
                               changedValue := "TEXT HAS BEEN CHANGED";
                               modificationType := "textContent" |}]>
                     (<[c := new_ModifyCommand
                               {| receiver := style mainText;
                                  changedValue := "blue";
                                  modificationType := "color" |}]>
                        (<[f := new_ModifyCommand
                                  {| receiver := style mainText;
                                     changedValue := "25px";
                                     modificationType := "fontSize" |}]>
                           (commands h))) |} !! c' = Some cmd' ->
            receiver (config cmd') = receiver cfg ->
            modificationType (config cmd') = modificationType cfg ->
            c' = x).
  { intros x c' cmd' Hx Hl Hr Hk. cbn in Hl.
    apply lookup_insert_Some in Hl as [[<- <-]|[Ht Hl]];
      [|apply lookup_insert_Some in Hl as [[<- <-]|[Hc Hl]];
        [|apply lookup_insert_Some in Hl as [[<- <-]|[Hf Hl]]]].
    - destruct b; cbn in Hcfg, Hx; try discriminate;
        injection Hcfg as <-; injection Hx as <-; cbn in Hk;
        first [reflexivity | discriminate].
    - destruct b; cbn in Hcfg, Hx; try discriminate;
        injection Hcfg as <-; injection Hx as <-; cbn in Hk;
        first [reflexivity | discriminate].
    - destruct b; cbn in Hcfg, Hx; try discriminate;
        injection Hcfg as <-; injection Hx as <-; cbn in Hk;
        first [reflexivity | discriminate].
    - destruct (Hold c' cmd' Hl) as [H1 H2].
      destruct b; cbn in Hcfg; try discriminate; injection Hcfg as <-;
        cbn in Hr; congruence. }
  destruct b; cbn in Hcfg; try discriminate; injection Hcfg as <-;
    cbn [Page.click] in *.
  - apply (twice_executed_field (fresh _) c
             (new_ModifyCommand {| receiver := style mainText;
                                   changedValue := "blue";
                                   modificationType := "color" |})).
    + cbn. by rewrite lookup_insert_ne, lookup_insert_eq.
    + exact Ha.
    + intros c' cmd' Hl Hr Hk. apply (Huniq c c' cmd' eq_refl Hl Hr Hk).
  - apply (twice_executed_field (fresh _) f
             (new_ModifyCommand {| receiver := style mainText;
                                   changedValue := "25px";
                                   modificationType := "fontSize" |})).
    + cbn. rewrite !lookup_insert_ne by done. by rewrite lookup_insert_eq.
    + exact Ha.
    + intros c' cmd' Hl Hr Hk. apply (Huniq f c' cmd' eq_refl Hl Hr Hk).
  - apply (twice_executed_field (fresh _) t
             (new_ModifyCommand {| receiver := mainText;
                                   changedValue := "TEXT HAS BEEN CHANGED";
                                   modificationType := "textContent" |})).
    + cbn. by rewrite lookup_insert_eq.
    + exact Ha.
    + intros c' cmd' Hl Hr Hk. apply (Huniq t c' cmd' eq_refl Hl Hr Hk).
Qed.

(** * The further properties at work on the scenarios *)

Example page_load :
  Page.load PageScenario.style PageScenario.h5 PageScenario.document
  = Normal PageScenario.page PageScenario.loaded.
Proof. vm_compute. reflexivity. Qed.

Example page_clicks :
  let r := run (map (Page.click PageScenario.page) PageScenario.clicks)
               (fresh PageScenario.loaded) in
  (returns r,
   field (heap (state_after r)) (PageScenario.style PageScenario.h5) "color",
   field (heap (state_after r)) (PageScenario.style PageScenario.h5) "fontSize",
   field (heap (state_after r)) PageScenario.h5 "textContent",
   log (state_after r), cursor (state_after r))
  = (true, Some (VString ""), Some (VString "25px"),
     Some (VString "TEXT HAS BEEN CHANGED"), [CRef 2; CRef 0], 1).
Proof. vm_compute. reflexivity. Qed.

Lemma invoker_two_stacks_witness :
  reachable (Scenario.after [CallExecute Scenario.set_B;
                             CallExecute Scenario.set_C; CallUndo])
  /\ redoable (Scenario.after [CallExecute Scenario.set_B;
                               CallExecute Scenario.set_C; CallUndo])
     = [Scenario.set_C]
  /\ Invoker.redo (Scenario.after [CallExecute Scenario.set_B;
                                   CallExecute Scenario.set_C; CallUndo])
     = match command_execute Scenario.set_C
               (heap (Scenario.after [CallExecute Scenario.set_B;
                                      CallExecute Scenario.set_C; CallUndo]))
       with
       | Normal _ h =>
           Normal tt
             {| heap := h;
                invoker :=
                  {| executedCommands :=
                       log (Scenario.after [CallExecute Scenario.set_B;
                                            CallExecute Scenario.set_C; CallUndo]);
                     currentExecutionState :=
                       cursor (Scenario.after [CallExecute Scenario.set_B;
                                               CallExecute Scenario.set_C;
                                               CallUndo]) + 1 |} |}
       | Throw e h =>
           Throw e
             {| heap := h;
                invoker :=
                  {| executedCommands :=
                       log (Scenario.after [CallExecute Scenario.set_B;
                                            CallExecute Scenario.set_C; CallUndo]);
                     currentExecutionState :=
                       cursor (Scenario.after [CallExecute Scenario.set_B;
                                               CallExecute Scenario.set_C;
                                               CallUndo]) + 1 |} |}
       end
  /\ applied (state_after
                (Invoker.redo
                   (Scenario.after [CallExecute Scenario.set_B;
                                    CallExecute Scenario.set_C; CallUndo])))
     = applied (Scenario.after [CallExecute Scenario.set_B;
                                CallExecute Scenario.set_C; CallUndo])
       ++ [Scenario.set_C]
  /\ redoable (state_after
                 (Invoker.redo
                    (Scenario.after [CallExecute Scenario.set_B;
                                     CallExecute Scenario.set_C; CallUndo])))
     = [].
Proof.
  assert (Hr : reachable (Scenario.after [CallExecute Scenario.set_B;
                                          CallExecute Scenario.set_C; CallUndo]))
    by apply reachable_run, reachable_fresh.
  assert (HR : redoable (Scenario.after [CallExecute Scenario.set_B;
                                         CallExecute Scenario.set_C; CallUndo])
               = [Scenario.set_C]) by (vm_compute; reflexivity).
  split; [exact Hr|]. split; [exact HR|].
  exact (proj2 (proj2 (proj2 (proj2 (proj2 (invoker_two_stacks _ Hr)))))
           Scenario.set_C [] HR).
Defined.

Lemma failed_execute_is_redoable_witness :
  reachable (Scenario.after [CallExecute Scenario.set_B])
  /\ applicable (heap (Scenario.after [CallExecute Scenario.set_B])) (CRef 7)
     = false
  /\ exists s1 s2,
       Invoker.execute (CRef 7) (Scenario.after [CallExecute Scenario.set_B])
       = Throw TypeError s1
       /\ heap s1 = heap (Scenario.after [CallExecute Scenario.set_B])
       /\ applied s1 = applied (Scenario.after [CallExecute Scenario.set_B])
       /\ redoable s1 = [CRef 7]
       /\ Invoker.redo s1 = Throw TypeError s2
       /\ heap s2 = heap (Scenario.after [CallExecute Scenario.set_B])
       /\ applied s2
          = applied (Scenario.after [CallExecute Scenario.set_B]) ++ [CRef 7]
       /\ redoable s2 = []
       /\ Invoker.undo s2 = Throw TypeError s1.
Proof.
  assert (Hr : reachable (Scenario.after [CallExecute Scenario.set_B]))
    by apply reachable_run, reachable_fresh.
  assert (Ha : applicable (heap (Scenario.after [CallExecute Scenario.set_B]))
                          (CRef 7) = false) by (vm_compute; reflexivity).
  split; [exact Hr|]. split; [exact Ha|].
  exact (failed_execute_is_redoable _ (CRef 7) Hr Ha).
Defined.

Lemma untargeted_field_unchanged_witness :
  (forall c cmd, commands (heap (fresh (C := cref) Scenario.start)) !! c = Some cmd ->
     receiver (config cmd) = Scenario.target ->
     modificationType (config cmd) <> "title"%string)
  /\ field (heap (state_after
                    (run [CallExecute Scenario.set_B; CallUndo; CallRedo]
                         (fresh Scenario.start))))
           Scenario.target "title"
     = field (heap (fresh (C := cref) Scenario.start)) Scenario.target "title".
Proof.
  assert (Hfree : forall c cmd,
            commands (heap (fresh (C := cref) Scenario.start)) !! c = Some cmd ->
            receiver (config cmd) = Scenario.target ->
            modificationType (config cmd) <> "title"%string).
  { intros c cmd Hl _. cbn in Hl.
    apply lookup_insert_Some in Hl as [[_ <-]|[_ Hl]]; [discriminate|].
    apply lookup_singleton_Some in Hl as [_ <-]. discriminate. }
  split; [exact Hfree|].
  exact (untargeted_field_unchanged _ _ Scenario.target "title" Hfree).
Defined.

Lemma executed_twice_sticks_witness :
  commands (heap (fresh (C := cref) Scenario.two_targets)) !! Scenario.set_B
  = Some (Scenario.set_value "B")
  /\ applicable (heap (fresh (C := cref) Scenario.two_targets)) Scenario.set_B
     = true
  /\ field (heap (state_after
                    (run (CallExecute Scenario.set_B :: CallExecute Scenario.set_B
                          :: [CallUndo; CallExecute Scenario.set_other; CallUndo;
                              CallUndo; CallUndo; CallRedo])
                         (fresh Scenario.two_targets))))
           (receiver (config (Scenario.set_value "B")))
           (modificationType (config (Scenario.set_value "B")))
     = Some (VString (changedValue (config (Scenario.set_value "B")))).
Proof.
  assert (Hcmd : commands (heap (fresh (C := cref) Scenario.two_targets))
                   !! Scenario.set_B = Some (Scenario.set_value "B"))
    by (vm_compute; reflexivity).
  assert (Ha : applicable (heap (fresh (C := cref) Scenario.two_targets))
                          Scenario.set_B = true) by (vm_compute; reflexivity).
  split; [exact Hcmd|]. split; [exact Ha|].
  apply (executed_twice_sticks _ Scenario.set_B (Scenario.set_value "B") _ Hcmd Ha).
  intros c' cmd' Hl Hr _. cbn in Hl.
  apply lookup_insert_Some in Hl as [[<- _]|[_ Hl]]; [reflexivity|].
  apply lookup_singleton_Some in Hl as [_ <-]. discriminate.
Defined.

Lemma history_applicable :
  Forall (fun c => call_applicable Scenario.start c = true) Scenario.history.
Proof. repeat constructor. Defined.

Lemma history_unapplied : executes_unapplied Scenario.history (fresh Scenario.start).
Proof.
  cbn [Scenario.history executes_unapplied].
  repeat split; apply (bool_decide_unpack _); vm_compute; exact I.
Defined.

Lemma history_is_applied_prefix_witness :
  Forall (fun c => call_applicable Scenario.start c = true) Scenario.history
  /\ executes_unapplied Scenario.history (fresh Scenario.start)
  /\ exists s' hE,
       run Scenario.history (fresh Scenario.start) = Normal tt s'
       /\ replay (executes (applied s')) Scenario.start = Normal tt hE
       /\ forall o key, field (heap s') o key = field hE o key.
Proof.
  split; [exact history_applicable|]. split; [exact history_unapplied|].
  exact (history_is_applied_prefix Scenario.start Scenario.history
           history_applicable history_unapplied).
Defined.

Lemma undo_everything_witness :
  Forall (fun c => call_applicable Scenario.start c = true) Scenario.history
  /\ executes_unapplied Scenario.history (fresh Scenario.start)
  /\ exists s',
       run Scenario.history (fresh Scenario.start) = Normal tt s'
       /\ forall n : nat,
            cursor s' + 1 <= Z.of_nat n ->
            exists s'',
              run (repeat CallUndo n) s' = Normal tt s''
              /\ cursor s'' = -1
              /\ log s'' = log s'
              /\ forall o key,
                   field (heap s'') o key = field Scenario.start o key.
Proof.
  split; [exact history_applicable|]. split; [exact history_unapplied|].
  exact (undo_everything Scenario.start Scenario.history
           history_applicable history_unapplied).
Defined.

Lemma undo_redo_round_trip_witness :
  Forall (fun c => call_applicable Scenario.start c = true) Scenario.history
  /\ executes_unapplied Scenario.history (fresh Scenario.start)
  /\ exists s',
       run Scenario.history (fresh Scenario.start) = Normal tt s'
       /\ (0 <= cursor s' ->
           exists s'',
             run [CallUndo; CallRedo] s' = Normal tt s''
             /\ invoker s'' = invoker s'
             /\ forall o key, field (heap s'') o key = field (heap s') o key)
       /\ (cursor s' < Z.of_nat (length (log s')) - 1 ->
           exists s'',
             run [CallRedo; CallUndo] s' = Normal tt s''
             /\ invoker s'' = invoker s'
             /\ forall o key, field (heap s'') o key = field (heap s') o key).
Proof.
  split; [exact history_applicable|]. split; [exact history_unapplied|].
  exact (undo_redo_round_trip Scenario.start Scenario.history
           history_applicable history_unapplied).
Defined.

Lemma clicks_return_witness :
  objects PageScenario.document !! PageScenario.h5
  = Some {[ "textContent"%string := VString "Some text" ]}
  /\ objects PageScenario.document !! PageScenario.style PageScenario.h5
     = Some {[ "color"%string := VString ""; "fontSize"%string := VString "" ]}
  /\ Page.load PageScenario.style PageScenario.h5 PageScenario.document
     = Normal PageScenario.page PageScenario.loaded
  /\ exists s',
       run (map (Page.click PageScenario.page) PageScenario.clicks)
           (fresh PageScenario.loaded)
       = Normal tt s'
       /\ well_formed s'.
Proof.
  assert (Hel : objects PageScenario.document !! PageScenario.h5
                = Some {[ "textContent"%string := VString "Some text" ]})
    by (vm_compute; reflexivity).
  assert (Hst : objects PageScenario.document
                  !! PageScenario.style PageScenario.h5
                = Some {[ "color"%string := VString "";
                          "fontSize"%string := VString "" ]})
    by (vm_compute; reflexivity).
  assert (E : Page.load PageScenario.style PageScenario.h5 PageScenario.document
              = Normal PageScenario.page PageScenario.loaded)
    by (vm_compute; reflexivity).
  split; [exact Hel|]. split; [exact Hst|]. split; [exact E|].
  exact (clicks_return PageScenario.style PageScenario.h5 PageScenario.document
           _ _ PageScenario.page PageScenario.loaded PageScenario.clicks
           Hel Hst E).
Defined.

Lemma double_click_sticks_witness :
  objects PageScenario.document !! PageScenario.h5
  = Some {[ "textContent"%string := VString "Some text" ]}
  /\ objects PageScenario.document !! PageScenario.style PageScenario.h5
     = Some {[ "color"%string := VString ""; "fontSize"%string := VString "" ]}
  /\ Page.load PageScenario.style PageScenario.h5 PageScenario.document
     = Normal PageScenario.page PageScenario.loaded
  /\ field (heap (state_after
                    (run (Page.click PageScenario.page Page.changeColorButton
                          :: Page.click PageScenario.page Page.changeColorButton
                          :: map (Page.click PageScenario.page)
                                 PageScenario.clicks)
                         (fresh PageScenario.loaded))))
           (PageScenario.style PageScenario.h5) "color"
     = Some (VString "blue").
Proof.
  assert (Hel : objects PageScenario.document !! PageScenario.h5
                = Some {[ "textContent"%string := VString "Some text" ]})
    by (vm_compute; reflexivity).
  assert (Hst : objects PageScenario.document
                  !! PageScenario.style PageScenario.h5
                = Some {[ "color"%string := VString "";
                          "fontSize"%string := VString "" ]})
    by (vm_compute; reflexivity).
  assert (E : Page.load PageScenario.style PageScenario.h5 PageScenario.document
              = Normal PageScenario.page PageScenario.loaded)
    by (vm_compute; reflexivity).
  split; [exact Hel|]. split; [exact Hst|]. split; [exact E|].
  apply (double_click_sticks PageScenario.style PageScenario.h5
           PageScenario.document _ _ PageScenario.page PageScenario.loaded
           Page.changeColorButton
           {| receiver := PageScenario.style PageScenario.h5;
              changedValue := "blue"; modificationType := "color" |}
           PageScenario.clicks Hel Hst).
  - intros c cmd Hl. cbn in Hl. rewrite lookup_empty in Hl. discriminate.
  - exact E.
  - reflexivity.
Defined.

(** ** The methods of a command and exceptions *)

(** X12. [ModifyCommand.execute] and [ModifyCommand.undo] return exactly when
    the reference is a command whose receiver is an object; otherwise they
    throw a [TypeError] before any assignment: the heap, [previousValue]
    included, is as it was. *)
Theorem command_methods_atomic (mc : Method * cref) (h : Heap) :
  returns (invoke mc h) = applicable h mc.2
  /\ (returns (invoke mc h) = false -> invoke mc h = Throw TypeError h).
Proof.
  destruct mc as [m c]. cbn [snd]. destruct (applicable h c) eqn:Ha.
  - destruct m; cbn [invoke command_execute command_undo ModifyCommand_Command].
    + destruct (execute_applicable _ _ Ha) as (h' & -> & _). by split.
    + destruct (undo_applicable _ _ Ha) as (h' & -> & _). by split.
  - destruct m; cbn [invoke command_execute command_undo ModifyCommand_Command].
    + rewrite (not_applicable_execute _ _ Ha). by split.
    + rewrite (not_applicable_undo _ _ Ha). by split.
Qed.

(** A command executed again while it is applied: [execute(set_B)],
    [execute(set_C)], [execute(set_B)] and three undos leave ["C"], not the
    ["A"] of the start. *)
Example scenario_reapplied :
  Scenario.observe
    [CallExecute Scenario.set_B; CallExecute Scenario.set_C;
     CallExecute Scenario.set_B; CallUndo; CallUndo; CallUndo]
  = (true, Some (VString "C"),
     [Scenario.set_B; Scenario.set_C; Scenario.set_B], -1).
Proof. vm_compute. reflexivity. Qed.
